(** * sparse_array_set: a shallow embedding of lib/data_structure/sparse_array_set.h

    The class keeps a [std::vector<int>] and two [int] cursors.  The members
    of the set are the slots [first .. last] of the vector.  The embedding
    follows the header member by member:

    - [int] values are integers of [Z]; arithmetic on the cursors is 32-bit
      two's-complement arithmetic, written with [wrap_int]: an overflow,
      which C++ leaves undefined, wraps around as the hardware does;
    - an access to the vector outside its bounds has no defined behaviour:
      the operation returns [None].  The loop of [contains] is followed slot
      by slot, so it answers as soon as it meets the value, also when
      [end()] lies behind the vector; a walk over the whole of
      [begin() .. end()] needs the two to delimit a range of the vector;
    - [move_to] takes a reference to another object, so the operations are
      also lifted to a store of objects, where the two may be the same. *)

From stdpp Require Import base numbers option list.

Local Open Scope Z_scope.

(** ** Machine integers *)

Definition INT_MIN : Z := -2147483648.
Definition INT_MAX : Z := 2147483647.

(** Result of an [int] operation whose mathematical value is [z]. *)
Definition wrap_int (z : Z) : Z := (z + 2147483648) `mod` 4294967296 - 2147483648.

(** Conversion of a value to [unsigned int]. *)
Definition to_unsigned (z : Z) : Z := z `mod` 4294967296.

(** ** std::vector<int> *)

(** [v[i]] as an rvalue; the index is converted to [size_t], so a negative
    index is out of range like one past the end. *)
Definition vec_get (v : list Z) (i : Z) : option Z :=
  if decide (0 ≤ i) then v !! Z.to_nat i else None.

(** [v[i] = x]. *)
Definition vec_set (v : list Z) (i x : Z) : option (list Z) :=
  if decide (0 ≤ i < Z.of_nat (length v)) then Some (<[Z.to_nat i := x]> v) else None.

(** [v.resize(n, fill)]: truncates, or appends copies of [fill]. *)
Definition vec_resize (v : list Z) (n : Z) (fill : Z) : list Z :=
  take (Z.to_nat n) v ++ replicate (Z.to_nat n - length v)%nat fill.

(** ** The class *)

Record sparse_array_set : Type := mk_set {
  elements : list Z;  (* Array containing the elements. *)
  first : Z;          (* Index of the first element. *)
  last : Z            (* Index of the last element. *)
}.

(** [sparse_array_set(unsigned int size)] *)
Definition create (size : Z) : sparse_array_set :=
  mk_set (replicate (Z.to_nat size) (-1)) 0 (-1).

(** [sparse_array_set()] *)
Definition create_default : sparse_array_set := mk_set [] 0 (-1).

Definition resize (s : sparse_array_set) (size : Z) : sparse_array_set :=
  mk_set (vec_resize (elements s) size (-1)) (first s) (last s).

Definition init (s : sparse_array_set) (size : Z) : sparse_array_set :=
  mk_set (vec_resize (elements s) size (-1)) 0 (-1).

(** [begin()] is [elements.begin() + first] and [end()] is
    [elements.begin() + last + 1].  They delimit a range a loop can walk
    when both lie inside the vector and [begin()] does not pass [end()]. *)
Definition range_ok (s : sparse_array_set) : Prop :=
  0 ≤ first s ∧ first s ≤ last s + 1 ∧ last s + 1 ≤ Z.of_nat (length (elements s)).

Global Instance range_ok_dec s : Decision (range_ok s).
Proof. unfold range_ok. apply _. Defined.

(** The slots between [begin()] and [end()]. *)
Definition active (s : sparse_array_set) : list Z :=
  take (Z.to_nat (last s + 1 - first s)) (drop (Z.to_nat (first s)) (elements s)).

(** The sequence a range-based [for] over [*this] visits when it runs
    from [begin()] to [end()]. *)
Definition iterate (s : sparse_array_set) : option (list Z) :=
  if decide (range_ok s) then Some (active s) else None.

(** The body of [contains]: return [true] at the first value equal to [x]. *)
Fixpoint scan (x : Z) (values : list Z) : bool :=
  match values with
  | [] => false
  | value :: rest => if decide (value = x) then true else scan x rest
  end.

(** [begin()] is an iterator of the vector and has not passed [end()].
    [first] is 0 and [last] is at least -1 in every state the member
    functions produce, whatever the size of the vector. *)
Definition begin_ok (s : sparse_array_set) : Prop :=
  0 ≤ first s ≤ last s + 1 ∧ first s ≤ Z.of_nat (length (elements s)).

Global Instance begin_ok_dec s : Decision (begin_ok s).
Proof. unfold begin_ok. apply _. Defined.

(** The loop of [contains], one slot a turn; [it] is the distance of the
    iterator from [elements.begin()].  The loop ends when the iterator
    equals [end()], and returns [true] at the first slot that holds [x];
    nothing checks that [end()] lies in the vector, and a turn reads the
    slot under the iterator.  Every turn that goes on has read a slot, so
    [fuel] larger than the vector is never used up
    (lemma [contains_loop_fuel]). *)
Fixpoint contains_loop (fuel : nat) (s : sparse_array_set) (x it : Z) : option bool :=
  match fuel with
  | O => None
  | S fuel' =>
      if decide (it = last s + 1) then Some false
      else
        value ← vec_get (elements s) it;
        if decide (value = x) then Some true
        else contains_loop fuel' s x (it + 1)
  end.

Definition contains (s : sparse_array_set) (x : Z) : option bool :=
  if decide (begin_ok s) then
    contains_loop (S (length (elements s))) s x (first s)
  else None.

Definition insert (s : sparse_array_set) (x : Z) : option sparse_array_set :=
  match contains s x with
  | None => None
  | Some true => Some s
  | Some false =>
      let last' := wrap_int (last s + 1) in
      e ← vec_set (elements s) last' x;
      Some (mk_set e (first s) last')
  end.

(** The loop of [remove], started at [index].  Every turn that goes on has
    read a slot of the vector, so [fuel] larger than the vector is never
    used up (lemma [remove_loop_fuel]). *)
Fixpoint remove_loop (fuel : nat) (s : sparse_array_set) (x index : Z)
  : option sparse_array_set :=
  match fuel with
  | O => None
  | S fuel' =>
      if decide (index ≤ last s) then
        v ← vec_get (elements s) index;
        if decide (v = x) then
          moved ← vec_get (elements s) (last s);
          e1 ← vec_set (elements s) index moved;
          e2 ← vec_set e1 (last s) x;
          Some (mk_set e2 (first s) (wrap_int (last s - 1)))
        else remove_loop fuel' s x (wrap_int (index + 1))
      else Some s
  end.

Definition remove (s : sparse_array_set) (x : Z) : option sparse_array_set :=
  remove_loop (S (length (elements s))) s x (first s).

(** [move_to] between two different objects. *)
Definition move_to (s : sparse_array_set) (x : Z) (other : sparse_array_set)
  : option (sparse_array_set * sparse_array_set) :=
  s' ← remove s x;
  other' ← insert other x;
  Some (s', other').

(** [unsigned int size() const { return last - first + 1; }] *)
Definition size (s : sparse_array_set) : Z :=
  to_unsigned (wrap_int (wrap_int (last s - first s) + 1)).

Definition empty (s : sparse_array_set) : bool := bool_decide (last s < first s).

(** [at(index)] and [operator[]]: the slot at a physical index. *)
Definition at_ (s : sparse_array_set) (index : Z) : option Z :=
  vec_get (elements s) index.

Definition clear (s : sparse_array_set) : sparse_array_set :=
  mk_set (elements s) 0 (-1).

(** The loop of [init_from_adj]. *)
Fixpoint insert_all (s : sparse_array_set) (values : list Z) : option sparse_array_set :=
  match values with
  | [] => Some s
  | neighbor :: rest => s' ← insert s neighbor; insert_all s' rest
  end.

(** [adj.size()] is a [size_t] passed to an [unsigned int] parameter;
    [adj[node]] converts [node] to [size_t]. *)
Definition init_from_adj (s : sparse_array_set) (adj : list (list Z)) (node : Z)
  : option sparse_array_set :=
  let s1 := resize s (to_unsigned (Z.of_nat (length adj))) in
  if decide (0 ≤ node) then
    neighbors ← adj !! Z.to_nat node;
    insert_all s1 neighbors
  else None.

(** ** A store of objects

    Objects are named by their position in the store.  [move_to] acts on
    the object [a] and then on the object [b] of the store as [remove] left
    it, so [a.move_to(x, a)] is covered. *)

Inductive op : Type :=
  | OpCreate (size : Z)
  | OpCreateDefault
  | OpInit (a : nat) (size : Z)
  | OpInsert (a : nat) (x : Z)
  | OpRemove (a : nat) (x : Z)
  | OpMoveTo (a : nat) (x : Z) (b : nat)
  | OpClear (a : nat).

Definition on_object (st : list sparse_array_set) (a : nat)
    (f : sparse_array_set → option sparse_array_set) : option (list sparse_array_set) :=
  s ← st !! a;
  s' ← f s;
  Some (<[a := s']> st).

Definition exec_op (st : list sparse_array_set) (o : op) : option (list sparse_array_set) :=
  match o with
  | OpCreate size => Some (st ++ [create size])
  | OpCreateDefault => Some (st ++ [create_default])
  | OpInit a size => on_object st a (λ s, Some (init s size))
  | OpInsert a x => on_object st a (λ s, insert s x)
  | OpRemove a x => on_object st a (λ s, remove s x)
  | OpMoveTo a x b =>
      st' ← on_object st a (λ s, remove s x);
      on_object st' b (λ s, insert s x)
  | OpClear a => on_object st a (λ s, Some (clear s))
  end.

Fixpoint run (st : list sparse_array_set) (ops : list op) : option (list sparse_array_set) :=
  match ops with
  | [] => Some st
  | o :: rest => st' ← exec_op st o; run st' rest
  end.

(** The states a program can reach: every operation of the run returned. *)
Definition reachable (st : list sparse_array_set) : Prop :=
  ∃ ops, run [] ops = Some st.

(** ** Notions of the specification *)

(** Invariant I2. *)
Definition I2 (s : sparse_array_set) : Prop := NoDup (active s).

(** The number of slots of the vector; the spec calls it the capacity. *)
Definition capacity (s : sparse_array_set) : Z := Z.of_nat (length (elements s)).

(** A set is fresh after a constructor or after [init]. *)
Definition fresh (s : sparse_array_set) : Prop :=
  (∃ c, s = create c) ∨ s = create_default ∨ (∃ s0 c, s = init s0 c).

(** The invariant of the class: [first] stays 0, [last] is an [int] from
    -1 up to the last slot of the vector, and I2 holds.  It holds in every
    reachable state (lemma [reachable_wf]): such a state is what the
    specification calls a set. *)
Definition wf (s : sparse_array_set) : Prop :=
  first s = 0 ∧ range_ok s ∧ last s ≤ INT_MAX ∧ I2 s.

Global Instance wf_dec s : Decision (wf s).
Proof. unfold wf, I2. apply _. Defined.

(** The values the structure is for: the non-negative [int]s, which name
    the nodes of a graph ([-1] fills the unused slots). *)
Definition node_id (v : Z) : Prop := 0 ≤ v ≤ INT_MAX.

Global Instance node_id_dec v : Decision (node_id v).
Proof. unfold node_id. apply _. Defined.

(** The members of [s] are node identifiers. *)
Definition node_members (s : sparse_array_set) : Prop := Forall node_id (active s).

(** ** Devices of the proofs *)

(** An object whose cursors delimit a range is a prefix [pre] the cursors
    skip, the active slots [act] and the slots [post] behind them. *)
Definition layout (pre act post : list Z) : sparse_array_set :=
  mk_set (pre ++ act ++ post)
         (Z.of_nat (length pre)) (Z.of_nat (length pre + length act) - 1).

(** The active slots after the values of [l] were inserted one by one:
    a value that is already there is passed over. *)
Fixpoint merge_new (act l : list Z) : list Z :=
  match l with
  | [] => act
  | v :: rest => merge_new (if scan v act then act else act ++ [v]) rest
  end.

(** The [n] values -1, -2, ..., -n. *)
Definition below_zero (n : nat) : list Z := (λ k : nat, - Z.of_nat k - 1) <$> seq 0 n.

(** A set whose 2^31 slots are all active: [last] is [INT_MAX]. *)
Definition full_set : sparse_array_set :=
  mk_set (below_zero (Z.to_nat 2147483648)) 0 INT_MAX.

(** The same members in a vector with one more slot. *)
Definition full_set_spare : sparse_array_set :=
  mk_set (below_zero (Z.to_nat 2147483648) ++ [-1]) 0 INT_MAX.

(** * Properties *)

(** ** Machine integers *)

Lemma wrap_int_id z : INT_MIN ≤ z ≤ INT_MAX → wrap_int z = z.
Proof.
  unfold wrap_int, INT_MIN, INT_MAX. intros Hz.
  rewrite Z.mod_small; lia.
Qed.

Lemma wrap_int_range z : INT_MIN ≤ wrap_int z ≤ INT_MAX.
Proof.
  unfold wrap_int, INT_MIN, INT_MAX.
  pose proof (Z.mod_pos_bound (z + 2147483648) 4294967296). lia.
Qed.

Lemma wrap_int_overflow : wrap_int (INT_MAX + 1) = INT_MIN.
Proof. reflexivity. Qed.

Lemma to_unsigned_id z : 0 ≤ z < 4294967296 → to_unsigned z = z.
Proof. intros Hz. unfold to_unsigned. rewrite Z.mod_small; lia. Qed.

(** ** The vector *)

Lemma vec_get_Some v i x :
  vec_get v i = Some x ↔ 0 ≤ i ∧ v !! Z.to_nat i = Some x.
Proof.
  unfold vec_get. case_decide as Hi; [tauto|].
  split; [done|]. by intros [? _].
Qed.

Lemma vec_get_nat v (n : nat) : vec_get v (Z.of_nat n) = v !! n.
Proof. unfold vec_get. rewrite decide_True by lia. by rewrite Nat2Z.id. Qed.

Lemma vec_get_neg v i : i < 0 → vec_get v i = None.
Proof. intros Hi. unfold vec_get. by rewrite decide_False by lia. Qed.

Lemma vec_set_nat v (n : nat) x :
  (n < length v)%nat → vec_set v (Z.of_nat n) x = Some (<[n := x]> v).
Proof. intros Hn. unfold vec_set. rewrite decide_True by lia. by rewrite Nat2Z.id. Qed.

Lemma vec_set_out v i x : ¬ (0 ≤ i < Z.of_nat (length v)) → vec_set v i x = None.
Proof. intros Hi. unfold vec_set. by rewrite decide_False. Qed.

Lemma vec_resize_length v n fill : 0 ≤ n → Z.of_nat (length (vec_resize v n fill)) = n.
Proof.
  intros Hn. unfold vec_resize.
  rewrite length_app, length_take, length_replicate. lia.
Qed.

Lemma vec_resize_grow v n fill :
  Z.of_nat (length v) ≤ n →
  vec_resize v n fill = v ++ replicate (Z.to_nat n - length v)%nat fill.
Proof. intros Hn. unfold vec_resize. rewrite take_ge by lia. done. Qed.

(** ** Scanning *)

Lemma scan_true x l : scan x l = true ↔ x ∈ l.
Proof.
  induction l as [|v l IH]; simpl.
  - split; [done | by intros ?%elem_of_nil].
  - rewrite elem_of_cons. case_decide as Hv.
    + split; [by left|done].
    + rewrite IH. split; [by right|]. by intros [?|?].
Qed.

Lemma scan_false x l : scan x l = false ↔ x ∉ l.
Proof.
  rewrite <- scan_true. destruct (scan x l); [|done].
  split; [done|]. by intros [].
Qed.

Lemma scan_app x l1 l2 : scan x (l1 ++ l2) = scan x l1 || scan x l2.
Proof. induction l1 as [|v l1 IH]; simpl; [done|]. by case_decide. Qed.

Lemma layout_range_ok pre act post : range_ok (layout pre act post).
Proof. unfold range_ok, layout; simpl. rewrite !length_app. lia. Qed.

Lemma layout_active pre act post : active (layout pre act post) = act.
Proof.
  unfold active, layout; simpl.
  rewrite Nat2Z.id, drop_app_length.
  apply take_app_length'. lia.
Qed.

Lemma layout_intro s :
  range_ok s →
  s = layout (take (Z.to_nat (first s)) (elements s)) (active s)
             (drop (Z.to_nat (last s + 1)) (elements s)).
Proof.
  intros (H0 & H1 & H2). destruct s as [e f l]; simpl in *.
  unfold layout, active; simpl.
  assert (Z.to_nat (l + 1) = (Z.to_nat f + Z.to_nat (l + 1 - f))%nat) as -> by lia.
  rewrite <- drop_drop, !take_drop.
  rewrite length_take, length_take, length_drop. f_equal; lia.
Qed.

(** ** contains *)

Lemma range_ok_begin_ok s : range_ok s → begin_ok s.
Proof. unfold range_ok, begin_ok. lia. Qed.

(** The fuel of [contains] is never used up: more fuel than slots from
    [it] on gives the same answer. *)
Lemma contains_loop_fuel s x (k : nat) : ∀ n m it,
  0 ≤ it → it + Z.of_nat k = Z.of_nat (length (elements s)) →
  (k < n)%nat → (k < m)%nat →
  contains_loop n s x it = contains_loop m s x it.
Proof.
  induction k as [|k IH]; intros n m it H0 Hk Hn Hm;
    (destruct n as [|n]; [lia|]); (destruct m as [|m]; [lia|]); simpl.
  - case_decide; [done|].
    unfold vec_get. rewrite decide_True by done.
    rewrite lookup_ge_None_2 by lia. done.
  - case_decide; [done|].
    destruct (vec_get (elements s) it) as [v|]; simpl; [|done].
    case_decide; [done|]. apply IH; lia.
Qed.

(** The loop on slots that lie in the vector up to [end()]. *)
Lemma contains_loop_scan s x (k : nat) : ∀ fuel it,
  0 ≤ it → it + Z.of_nat k = last s + 1 →
  last s + 1 ≤ Z.of_nat (length (elements s)) → (k < fuel)%nat →
  contains_loop fuel s x it
  = Some (scan x (take k (drop (Z.to_nat it) (elements s)))).
Proof.
  induction k as [|k IH]; intros fuel it H0 Hk Hlen Hfuel;
    (destruct fuel as [|fuel]; [lia|]); simpl.
  - by rewrite decide_True by lia.
  - rewrite decide_False by lia.
    destruct (lookup_lt_is_Some_2 (elements s) (Z.to_nat it)) as [v Hv]; [lia|].
    unfold vec_get. rewrite decide_True by done. rewrite Hv. simpl.
    rewrite (drop_S _ _ _ Hv). simpl.
    case_decide; [done|].
    rewrite IH by lia. by replace (Z.to_nat (it + 1)) with (S (Z.to_nat it)) by lia.
Qed.

(** The loop when [end()] lies behind the vector: it returns at a slot
    that holds [x], and leaves the vector when there is none. *)
Lemma contains_loop_cut s x (k : nat) : ∀ fuel it,
  0 ≤ it → it + Z.of_nat k = Z.of_nat (length (elements s)) →
  Z.of_nat (length (elements s)) < last s + 1 → (k < fuel)%nat →
  contains_loop fuel s x it
  = if scan x (drop (Z.to_nat it) (elements s)) then Some true else None.
Proof.
  induction k as [|k IH]; intros fuel it H0 Hk Hlen Hfuel;
    (destruct fuel as [|fuel]; [lia|]); simpl.
  - rewrite decide_False by lia.
    unfold vec_get. rewrite decide_True by done.
    rewrite lookup_ge_None_2 by lia. simpl.
    by rewrite drop_ge by lia.
  - rewrite decide_False by lia.
    destruct (lookup_lt_is_Some_2 (elements s) (Z.to_nat it)) as [v Hv]; [lia|].
    unfold vec_get. rewrite decide_True by done. rewrite Hv. simpl.
    rewrite (drop_S _ _ _ Hv). simpl.
    case_decide; [done|].
    rewrite IH by lia. by replace (Z.to_nat (it + 1)) with (S (Z.to_nat it)) by lia.
Qed.

(** [contains] when the cursors delimit a range of the vector. *)
Lemma contains_range_ok s x : range_ok s → contains s x = Some (scan x (active s)).
Proof.
  intros Hr. pose proof Hr as (H0 & H1 & H2).
  unfold contains. rewrite decide_True by by apply range_ok_begin_ok.
  rewrite (contains_loop_scan s x (Z.to_nat (last s + 1 - first s))) by lia.
  done.
Qed.

(** [contains] when [end()] lies behind the vector. *)
Lemma contains_cut s x :
  begin_ok s → Z.of_nat (length (elements s)) < last s + 1 →
  contains s x = if scan x (active s) then Some true else None.
Proof.
  intros Hb Hcut. pose proof Hb as ((H0 & H1) & H2).
  unfold contains. rewrite decide_True by done.
  rewrite (contains_loop_cut s x (length (elements s) - Z.to_nat (first s))) by lia.
  unfold active. rewrite take_ge; [done|]. rewrite length_drop. lia.
Qed.

Lemma layout_contains pre act post x :
  contains (layout pre act post) x = Some (scan x act).
Proof.
  rewrite contains_range_ok by apply layout_range_ok.
  by rewrite layout_active.
Qed.

Lemma contains_true s x : contains s x = Some true ↔ begin_ok s ∧ x ∈ active s.
Proof.
  rewrite <- scan_true.
  destruct (decide (begin_ok s)) as [Hb|Hb].
  - destruct (decide (last s + 1 ≤ Z.of_nat (length (elements s)))) as [Hl|Hl].
    + rewrite contains_range_ok by (unfold range_ok, begin_ok in *; lia).
      split; [by intros [= ->]|by intros [_ ->]].
    + rewrite contains_cut by (done || lia).
      destruct (scan x (active s)); split; try done. by intros [_ ?].
  - unfold contains. rewrite decide_False by done.
    split; [done|]. by intros [? _].
Qed.

Lemma contains_false s x : contains s x = Some false ↔ range_ok s ∧ x ∉ active s.
Proof.
  rewrite <- scan_false.
  destruct (decide (begin_ok s)) as [Hb|Hb].
  - destruct (decide (last s + 1 ≤ Z.of_nat (length (elements s)))) as [Hl|Hl].
    + assert (range_ok s) as Hr by (unfold range_ok, begin_ok in *; lia).
      rewrite contains_range_ok by done.
      split; [by intros [= ->]|by intros [_ ->]].
    + rewrite contains_cut by (done || lia).
      destruct (scan x (active s)); split; try done;
        intros [(_ & _ & ?) _]; lia.
  - unfold contains. rewrite decide_False by done.
    split; [done|]. intros [?%range_ok_begin_ok _]. done.
Qed.

(** When the cursors delimit a range of the vector, [contains] tells the
    active slots. *)
Lemma contains_member s x : range_ok s → (contains s x = Some true ↔ x ∈ active s).
Proof.
  intros Hr. rewrite contains_true.
  split; [by intros [_ ?]|]. intros ?. split; [by apply range_ok_begin_ok|done].
Qed.

Lemma active_length s :
  range_ok s → Z.of_nat (length (active s)) = last s + 1 - first s.
Proof.
  intros (H0 & H1 & H2). unfold active.
  rewrite length_take, length_drop. lia.
Qed.

(** The active slot number [k] is the slot [first + k] of the vector. *)
Lemma active_lookup s (k : nat) :
  0 ≤ first s → Z.of_nat k < last s + 1 - first s →
  active s !! k = elements s !! (Z.to_nat (first s) + k)%nat.
Proof.
  intros H0 Hk. unfold active.
  rewrite lookup_take_lt by lia. apply lookup_drop.
Qed.

(** ** insert *)

Lemma insert_member s x : contains s x = Some true → insert s x = Some s.
Proof. intros H. unfold insert. by rewrite H. Qed.

(** The new value goes into the first slot behind the active ones. *)
Lemma insert_layout_new pre act y post x :
  x ∉ act → Z.of_nat (length pre + length act) ≤ INT_MAX →
  insert (layout pre act (y :: post)) x = Some (layout pre (act ++ [x]) post).
Proof.
  intros Hx Hmax. unfold insert.
  rewrite layout_contains. apply scan_false in Hx as ->.
  unfold layout; simpl.
  replace (Z.of_nat (length pre + length act) - 1 + 1)
    with (Z.of_nat (length pre + length act)) by lia.
  rewrite wrap_int_id by (unfold INT_MIN; lia).
  rewrite vec_set_nat by (rewrite !length_app; simpl; lia).
  simpl. f_equal. f_equal.
  - rewrite app_assoc, <- length_app.
    rewrite (insert_app_r_alt _ _ (length (pre ++ act))) by lia.
    rewrite Nat.sub_diag. simpl. by rewrite <- !app_assoc.
  - rewrite length_app. simpl. lia.
Qed.

(** No slot is left behind the active ones. *)
Lemma insert_layout_full pre act x :
  x ∉ act → Z.of_nat (length pre + length act) ≤ INT_MAX + 1 →
  insert (layout pre act []) x = None.
Proof.
  intros Hx Hmax. unfold insert.
  rewrite layout_contains. apply scan_false in Hx as ->.
  unfold layout; simpl.
  replace (Z.of_nat (length pre + length act) - 1 + 1)
    with (Z.of_nat (length pre + length act)) by lia.
  rewrite vec_set_out; [done|].
  rewrite !length_app; simpl.
  destruct (decide (Z.of_nat (length pre + length act) = INT_MAX + 1)) as [->|].
  - rewrite wrap_int_overflow. unfold INT_MIN. lia.
  - rewrite wrap_int_id by (unfold INT_MIN; lia). lia.
Qed.

(** [last] is [INT_MAX]: the increment leaves the range of [int]. *)
Lemma insert_layout_overflow pre act post x :
  x ∉ act → Z.of_nat (length pre + length act) = INT_MAX + 1 →
  insert (layout pre act post) x = None.
Proof.
  intros Hx Hmax. unfold insert.
  rewrite layout_contains. apply scan_false in Hx as ->.
  unfold layout; simpl.
  replace (Z.of_nat (length pre + length act) - 1 + 1) with (INT_MAX + 1) by lia.
  rewrite wrap_int_overflow.
  rewrite vec_set_out; [done|]. unfold INT_MIN. lia.
Qed.

(** [insert] in terms of the object itself. *)
Lemma insert_new s x :
  contains s x = Some false →
  last s + 1 < Z.of_nat (length (elements s)) → last s < INT_MAX →
  ∃ s', insert s x = Some s' ∧ active s' = active s ++ [x] ∧
        first s' = first s ∧ last s' = last s + 1 ∧
        elements s' = <[Z.to_nat (last s + 1) := x]> (elements s).
Proof.
  intros [Hr Hx]%contains_false Hroom Hmax.
  unfold insert. rewrite (proj2 (contains_false s x)) by done.
  destruct Hr as (H0 & H1 & H2).
  rewrite wrap_int_id by (unfold INT_MIN; lia).
  unfold vec_set. rewrite decide_True by lia. simpl.
  eexists; split; [done|]. simpl. split_and!; try done.
  unfold active; simpl.
  replace (Z.to_nat (last s + 1 + 1 - first s))
    with (S (Z.to_nat (last s + 1 - first s))) by lia.
  rewrite drop_insert_ge by lia.
  erewrite take_S_r.
  - by rewrite take_insert_ge by lia.
  - replace (Z.to_nat (last s + 1) - Z.to_nat (first s))%nat
      with (Z.to_nat (last s + 1 - first s)) by lia.
    apply list_lookup_insert_eq. rewrite length_drop. lia.
Qed.

(** What a call of [insert] that returned has done. *)
Lemma insert_inv s x s' :
  insert s x = Some s' → last s ≤ INT_MAX →
  (contains s x = Some true ∧ s' = s) ∨
  (contains s x = Some false ∧
   last s + 1 < Z.of_nat (length (elements s)) ∧ last s < INT_MAX ∧
   active s' = active s ++ [x] ∧ first s' = first s ∧ last s' = last s + 1 ∧
   elements s' = <[Z.to_nat (last s + 1) := x]> (elements s)).
Proof.
  intros Hi Hty.
  destruct (contains s x) as [[]|] eqn:Hc.
  - left. rewrite insert_member in Hi by done. by simplify_eq.
  - right. split; [done|].
    assert (last s + 1 < Z.of_nat (length (elements s)) ∧ last s < INT_MAX)
      as [Hroom Hmax].
    { pose proof Hc as [(H0 & H1 & H2) _]%contains_false.
      unfold insert in Hi. rewrite Hc in Hi. simpl in Hi.
      unfold vec_set in Hi. case_decide as Hidx; [|done].
      destruct (decide (last s = INT_MAX)) as [Heq|Hne].
      - rewrite Heq, wrap_int_overflow in Hidx. unfold INT_MIN in Hidx. lia.
      - rewrite wrap_int_id in Hidx by (unfold INT_MIN; lia). lia. }
    destruct (insert_new s x Hc Hroom Hmax) as (s2 & Hi2 & ?).
    rewrite Hi in Hi2. by simplify_eq.
  - unfold insert in Hi. by rewrite Hc in Hi.
Qed.

(** ** remove *)

Lemma remove_loop_S fuel s x index :
  remove_loop (S fuel) s x index =
    if decide (index ≤ last s) then
      v ← vec_get (elements s) index;
      if decide (v = x) then
        moved ← vec_get (elements s) (last s);
        e1 ← vec_set (elements s) index moved;
        e2 ← vec_set e1 (last s) x;
        Some (mk_set e2 (first s) (wrap_int (last s - 1)))
      else remove_loop fuel s x (wrap_int (index + 1))
    else Some s.
Proof. reflexivity. Qed.

(** The loop does not depend on its fuel once the fuel exceeds the number
    of slots from [index] on: the fuel of [remove] never runs out. *)
Lemma remove_loop_fuel s x n m i :
  i ≤ INT_MAX → (1 ≤ n)%nat → (1 ≤ m)%nat →
  (i < 0 ∨ Z.of_nat (length (elements s)) - i < Z.of_nat n) →
  (i < 0 ∨ Z.of_nat (length (elements s)) - i < Z.of_nat m) →
  remove_loop n s x i = remove_loop m s x i.
Proof.
  revert m i. induction n as [|n IH]; intros m i Hi Hn Hm Hfn Hfm; [lia|].
  destruct m as [|m]; [lia|].
  rewrite !remove_loop_S. case_decide; [|done].
  destruct (vec_get (elements s) i) as [v|] eqn:Hg; [|done]. simpl.
  case_decide; [done|].
  apply vec_get_Some in Hg as [Hi0 Hlt%lookup_lt_Some].
  pose proof (wrap_int_range (i + 1)) as [_ Hw].
  destruct (decide (i = INT_MAX)) as [->|].
  - rewrite wrap_int_overflow. apply IH; unfold INT_MIN, INT_MAX; lia.
  - rewrite wrap_int_id by (unfold INT_MIN; lia). apply IH; lia.
Qed.

(** In particular any larger fuel gives the result of [remove]. *)
Lemma remove_fuel s x (n : nat) :
  first s ≤ INT_MAX → (length (elements s) < n)%nat →
  remove_loop n s x (first s) = remove s x.
Proof.
  intros Hf Hn. unfold remove.
  apply remove_loop_fuel; [done|lia|lia|..];
    (destruct (decide (first s < 0)); [by left|right; lia]).
Qed.

(** [k] slots from [index] on that do not hold [x] are passed over. *)
Lemma remove_loop_skip s x (k : nat) : ∀ (n : nat) (i : Z),
  0 ≤ i ≤ INT_MAX → i + Z.of_nat k ≤ last s + 1 →
  i + Z.of_nat k ≤ Z.of_nat (length (elements s)) →
  i + Z.of_nat k ≤ INT_MAX + 1 →
  (∀ j : nat, (j < k)%nat → elements s !! (Z.to_nat i + j)%nat ≠ Some x) →
  remove_loop (k + n) s x i = remove_loop n s x (wrap_int (i + Z.of_nat k)).
Proof.
  induction k as [|k IH]; intros n i Hi Hlast Hlen Hmax Hne.
  - simpl. rewrite Z.add_0_r, wrap_int_id; [done|]. unfold INT_MIN. lia.
  - replace (S k + n)%nat with (S (k + n)) by lia.
    rewrite remove_loop_S, decide_True by lia.
    destruct (lookup_lt_is_Some_2 (elements s) (Z.to_nat i)) as [v Hv]; [lia|].
    rewrite (proj2 (vec_get_Some (elements s) i v)) by (split; [lia|done]). simpl.
    rewrite decide_False.
    2:{ intros ->. apply (Hne 0%nat); [lia|]. by rewrite Nat.add_0_r. }
    destruct k as [|k].
    { simpl. do 2 f_equal. }
    rewrite wrap_int_id by (unfold INT_MIN; lia).
    rewrite IH; [f_equal; f_equal; lia|lia..|].
    intros j Hj. replace (Z.to_nat (i + 1) + j)%nat with (Z.to_nat i + S j)%nat by lia.
    apply Hne. lia.
Qed.

Lemma active_not_elem s x (j : nat) :
  0 ≤ first s → x ∉ take j (active s) → ∀ j' : nat, (j' < j)%nat →
  Z.of_nat j ≤ last s + 1 - first s →
  elements s !! (Z.to_nat (first s) + j')%nat ≠ Some x.
Proof.
  intros H0 Hx j' Hj' Hj Hl. apply Hx.
  apply list_elem_of_lookup. exists j'.
  rewrite lookup_take_lt by done. rewrite active_lookup by lia. done.
Qed.

(** [x] is not a member: the loop runs to its end and changes nothing,
    unless [last] is [INT_MAX] and [index <= last] cannot fail. *)
Lemma remove_absent s x :
  contains s x = Some false → last s < INT_MAX → remove s x = Some s.
Proof.
  intros [Hr Hx]%contains_false Hmax.
  pose proof Hr as (H0 & H1 & H2). unfold remove.
  set (k := Z.to_nat (last s + 1 - first s)).
  replace (S (length (elements s)))
    with (k + S (length (elements s) - k))%nat by lia.
  rewrite remove_loop_skip; [|lia..|].
  - rewrite remove_loop_S, decide_False; [done|].
    rewrite wrap_int_id by (unfold INT_MIN; lia). lia.
  - intros j Hj. apply (active_not_elem s x k); [done| |done|lia].
    intros Hin. apply Hx. by eapply subseteq_take.
Qed.

Lemma remove_absent_overflow s x :
  contains s x = Some false → first s ≤ INT_MAX → last s = INT_MAX →
  remove s x = None.
Proof.
  intros [Hr Hx]%contains_false Hf Hmax.
  pose proof Hr as (H0 & H1 & H2). unfold remove.
  set (k := Z.to_nat (last s + 1 - first s)).
  replace (S (length (elements s)))
    with (k + S (length (elements s) - k))%nat by lia.
  rewrite remove_loop_skip; [|lia..|].
  - replace (first s + Z.of_nat k) with (INT_MAX + 1) by lia.
    rewrite wrap_int_overflow, remove_loop_S.
    rewrite decide_True by (unfold INT_MIN, INT_MAX in *; lia).
    by rewrite (vec_get_neg _ INT_MIN) by (unfold INT_MIN; lia).
  - intros j Hj. apply (active_not_elem s x k); [done| |done|lia].
    intros Hin. apply Hx. by eapply subseteq_take.
Qed.

(** [x] is met first in the active slot number [k]: two writes and one
    decrement. *)
Lemma remove_found s x (k : nat) moved :
  range_ok s → last s ≤ INT_MAX →
  active s !! k = Some x → x ∉ take k (active s) →
  elements s !! Z.to_nat (last s) = Some moved →
  remove s x =
    Some (mk_set (<[Z.to_nat (last s) := x]>
                    (<[(Z.to_nat (first s) + k)%nat := moved]> (elements s)))
                 (first s) (last s - 1)).
Proof.
  intros Hr Hty Hk Hx Hmoved. pose proof Hr as (H0 & H1 & H2).
  pose proof (lookup_lt_Some _ _ _ Hk) as Hklt.
  pose proof (active_length s Hr) as Hlen.
  unfold remove.
  replace (S (length (elements s)))
    with (k + S (length (elements s) - k))%nat by lia.
  rewrite remove_loop_skip; [|lia..|].
  2:{ intros j Hj. apply (active_not_elem s x k); [done..|lia]. }
  rewrite wrap_int_id by (unfold INT_MIN; lia).
  rewrite remove_loop_S, decide_True by lia.
  rewrite active_lookup in Hk by lia.
  rewrite (proj2 (vec_get_Some (elements s) (first s + Z.of_nat k) x)).
  2:{ split; [lia|]. rewrite <- Hk. f_equal. lia. }
  simpl. rewrite decide_True by done.
  rewrite (proj2 (vec_get_Some (elements s) (last s) moved)) by (split; [lia|done]).
  simpl.
  unfold vec_set. rewrite decide_True by lia. simpl.
  rewrite decide_True by (rewrite length_insert; lia). simpl.
  rewrite wrap_int_id by (unfold INT_MIN; lia).
  replace (Z.to_nat (first s + Z.of_nat k)) with (Z.to_nat (first s) + k)%nat by lia.
  done.
Qed.

(** Overwriting slot [k] with the last slot and dropping the last slot
    removes one copy of what slot [k] held. *)
Lemma swap_pop_perm (a : list Z) (k m : nat) x y :
  a !! k = Some x → a !! m = Some y → length a = S m →
  a ≡ₚ x :: take m (<[k := y]> a).
Proof.
  intros Hk Hm Hlen.
  assert (a = take m a ++ [y]) as Ha.
  { rewrite <- (take_drop m a) at 1. f_equal.
    rewrite (drop_S _ y) by done. rewrite drop_ge by lia. done. }
  pose proof (lookup_lt_Some _ _ _ Hk) as Hklt.
  destruct (decide (k = m)) as [->|Hne].
  - simplify_eq. rewrite list_insert_id by done.
    rewrite Ha at 1. by rewrite Permutation_app_comm.
  - assert (take m a !! k = Some x) as Hk'.
    { rewrite lookup_take_lt by lia. done. }
    rewrite take_insert_lt by lia.
    rewrite Ha at 1.
    rewrite <- (take_drop_middle (take m a) k x) at 1 by done.
    rewrite insert_take_drop by (rewrite length_take; lia).
    rewrite <- app_assoc. simpl.
    rewrite <- Permutation_middle. constructor.
    apply Permutation_app_head.
    rewrite <- Permutation_cons_append. done.
Qed.

(** The active slots after the two writes and the decrement of [remove]. *)
Lemma remove_active e f l (k : nat) x moved :
  0 ≤ f → f + Z.of_nat k ≤ l → l < Z.of_nat (length e) →
  active (mk_set (<[Z.to_nat l := x]> (<[(Z.to_nat f + k)%nat := moved]> e)) f (l - 1))
  = take (Z.to_nat (l - f)) (<[k := moved]> (active (mk_set e f l))).
Proof.
  intros Hf Hk Hl. unfold active; simpl.
  replace (Z.to_nat (l - 1 + 1 - f)) with (Z.to_nat (l - f)) by lia.
  replace (Z.to_nat (l + 1 - f)) with (S (Z.to_nat (l - f))) by lia.
  rewrite drop_insert_ge by lia.
  rewrite take_insert_ge by lia.
  rewrite drop_insert_ge by lia.
  replace (Z.to_nat f + k - Z.to_nat f)%nat with k by lia.
  rewrite <- take_insert_lt by lia.
  rewrite take_take. f_equal. lia.
Qed.

(** What [remove] does to an object that holds [x]. *)
Lemma remove_member s x :
  range_ok s → last s ≤ INT_MAX → x ∈ active s →
  ∃ (k : nat) moved s',
    remove s x = Some s' ∧
    active s !! k = Some x ∧ (x ∉ take k (active s)) ∧
    elements s !! Z.to_nat (last s) = Some moved ∧
    elements s' = <[Z.to_nat (last s) := x]>
                    (<[(Z.to_nat (first s) + k)%nat := moved]> (elements s)) ∧
    first s' = first s ∧ last s' = last s - 1 ∧
    active s ≡ₚ x :: active s'.
Proof.
  intros Hr Hty Hin. pose proof Hr as (H0 & H1 & H2).
  pose proof (active_length s Hr) as Hlen.
  apply list_elem_of_split_l in Hin as (l1 & l2 & Hsplit & Hx).
  assert (active s !! length l1 = Some x) as Hk.
  { rewrite Hsplit. apply list_lookup_middle. done. }
  assert (x ∉ take (length l1) (active s)) as Hx'.
  { rewrite Hsplit, take_app_length. done. }
  pose proof (lookup_lt_Some _ _ _ Hk) as Hklt.
  destruct (lookup_lt_is_Some_2 (elements s) (Z.to_nat (last s))) as [moved Hmoved];
    [lia|].
  exists (length l1), moved. eexists. split.
  { apply remove_found; done. }
  simpl. split_and!; try done.
  destruct s as [e f l]; simpl in *.
  rewrite remove_active by lia.
  apply swap_pop_perm; [done| |lia].
  rewrite active_lookup by (simpl; lia). simpl.
  rewrite <- Hmoved. f_equal. lia.
Qed.

(** What a call of [remove] that returned has done. *)
Lemma remove_inv s x s' :
  remove s x = Some s' → range_ok s → first s ≤ INT_MAX → last s ≤ INT_MAX →
  ((x ∉ active s) ∧ s' = s) ∨
  (x ∈ active s ∧ first s' = first s ∧ last s' = last s - 1 ∧
   length (elements s') = length (elements s) ∧ active s ≡ₚ x :: active s').
Proof.
  intros Hrem Hr Hf Hl.
  destruct (decide (x ∈ active s)) as [Hin|Hnin].
  - right. split; [done|].
    destruct (remove_member s x Hr Hl Hin)
      as (k & moved & s2 & Hrem2 & _ & _ & _ & He & ? & ? & ?).
    rewrite Hrem in Hrem2. simplify_eq.
    split_and!; try done. by rewrite He, !length_insert.
  - left. split; [done|].
    assert (contains s x = Some false) as Hc by by apply contains_false.
    destruct (decide (last s = INT_MAX)) as [Heq|Hne].
    + rewrite remove_absent_overflow in Hrem by done. done.
    + rewrite remove_absent in Hrem by (done || lia). by simplify_eq.
Qed.

(** ** size and empty *)

(** Inside the range of [int] the wrap-arounds of [size] are not felt. *)
Lemma size_active s :
  range_ok s → last s ≤ INT_MAX → size s = Z.of_nat (length (active s)).
Proof.
  intros Hr Hty. rewrite active_length by done.
  destruct Hr as (H0 & H1 & H2). unfold size.
  rewrite (wrap_int_id (last s - first s)) by (unfold INT_MIN; lia).
  unfold INT_MAX in Hty.
  destruct (decide (last s - first s = 2147483647)) as [Heq|Hne].
  - rewrite Heq. replace (last s + 1 - first s) with 2147483648 by lia. done.
  - rewrite wrap_int_id by (unfold INT_MIN, INT_MAX; lia).
    rewrite to_unsigned_id; lia.
Qed.

Lemma empty_active s : range_ok s → empty s = bool_decide (active s = []).
Proof.
  intros Hr. pose proof (active_length s Hr) as Hlen. unfold empty.
  destruct Hr as (H0 & H1 & H2).
  apply bool_decide_ext. split.
  - intros Hlt. apply length_zero_iff_nil. lia.
  - intros Hnil. rewrite Hnil in Hlen. simpl in Hlen. lia.
Qed.

(** ** Inserting a sequence *)

Lemma merge_new_elem act l v : v ∈ merge_new act l ↔ v ∈ act ∨ v ∈ l.
Proof.
  revert act. induction l as [|w l IH]; intros act; simpl.
  - rewrite elem_of_nil. tauto.
  - rewrite IH, elem_of_cons. destruct (scan w act) eqn:Hs.
    + apply scan_true in Hs. split; [tauto|]. intros [?|[->|?]]; tauto.
    + rewrite elem_of_app, list_elem_of_singleton. tauto.
Qed.

Lemma merge_new_NoDup act l : NoDup act → NoDup (merge_new act l).
Proof.
  revert act. induction l as [|w l IH]; intros act Hnd; simpl; [done|].
  apply IH. destruct (scan w act) eqn:Hs; [done|].
  apply scan_false in Hs. apply NoDup_app. split_and!; [done| |apply NoDup_singleton].
  intros v Hv ->%list_elem_of_singleton. done.
Qed.

Lemma merge_new_length act l : (length act ≤ length (merge_new act l))%nat.
Proof.
  revert act. induction l as [|w l IH]; intros act; simpl; [done|].
  etrans; [|apply IH]. destruct (scan w act); [done|].
  rewrite length_app. lia.
Qed.

(** Distinct values that are not there yet are appended in their order. *)
Lemma merge_new_fresh act l : NoDup (act ++ l) → merge_new act l = act ++ l.
Proof.
  revert act. induction l as [|w l IH]; intros act Hnd; simpl.
  - by rewrite app_nil_r.
  - replace (scan w act) with false.
    + rewrite IH; rewrite <- app_assoc; done.
    + symmetry. apply scan_false.
      apply NoDup_app in Hnd as (_ & Hd & _). intros Hin.
      apply (Hd w Hin). left.
Qed.

Lemma insert_all_app s l1 l2 :
  insert_all s (l1 ++ l2) = insert_all s l1 ≫= λ s', insert_all s' l2.
Proof.
  revert s. induction l1 as [|v l1 IH]; intros s; simpl; [done|].
  destruct (insert s v) as [s'|]; simpl; [apply IH|done].
Qed.

(** [insert_all] on an object with room behind its active slots. *)
Lemma insert_all_layout pre l : ∀ act post,
  (length (merge_new act l) - length act ≤ length post)%nat →
  Z.of_nat (length pre + length (merge_new act l)) ≤ INT_MAX + 1 →
  insert_all (layout pre act post) l
  = Some (layout pre (merge_new act l)
                 (drop (length (merge_new act l) - length act) post)).
Proof.
  induction l as [|v l IH]; intros act post Hroom Hmax; simpl.
  - by rewrite Nat.sub_diag.
  - simpl in Hroom, Hmax. destruct (scan v act) eqn:Hs.
    + rewrite insert_member by (by rewrite layout_contains, Hs). simpl.
      by apply IH.
    + pose proof (merge_new_length (act ++ [v]) l) as Hge.
      rewrite length_app in Hge. simpl in Hge.
      destruct post as [|y post]; [simpl in Hroom; lia|].
      rewrite insert_layout_new by (by apply scan_false || lia). simpl.
      rewrite IH by (rewrite ?length_app; simpl in *; lia).
      rewrite length_app. simpl. do 2 f_equal.
      replace (length (merge_new (act ++ [v]) l) - length act)%nat
        with (S (length (merge_new (act ++ [v]) l) - (length act + 1)))%nat by lia.
      done.
Qed.

(** [resize] keeps the active slots when it does not cut into them. *)
Lemma resize_layout pre act post n :
  Z.of_nat (length pre + length act) ≤ n →
  resize (layout pre act post) n
  = layout pre act (vec_resize post (n - Z.of_nat (length pre + length act)) (-1)).
Proof.
  intros Hn. unfold resize, layout, vec_resize; simpl. f_equal.
  rewrite !app_assoc.
  rewrite take_app_ge by (rewrite length_app; lia).
  rewrite <- !app_assoc. do 2 f_equal.
  rewrite !length_app. f_equal; [f_equal|f_equal]; lia.
Qed.

(** ** Fresh sets and the invariant of the class *)

Lemma fresh_layout s : fresh s → s = layout [] [] (elements s).
Proof. by intros [[c ->]|[->|(s0 & c & ->)]]. Qed.

Lemma wf_create c : wf (create c).
Proof.
  unfold wf, range_ok, I2, INT_MAX; simpl.
  split_and!; try lia; try done; apply NoDup_nil_2.
Qed.

Lemma wf_create_default : wf create_default.
Proof. apply (wf_create 0). Qed.

Lemma wf_init s c : wf (init s c).
Proof.
  unfold wf, range_ok, I2, INT_MAX; simpl.
  split_and!; try lia; try done; apply NoDup_nil_2.
Qed.

Lemma wf_clear s : wf (clear s).
Proof.
  unfold wf, range_ok, I2, INT_MAX; simpl.
  split_and!; try lia; try done; apply NoDup_nil_2.
Qed.

Lemma wf_insert s x s' : wf s → insert s x = Some s' → wf s'.
Proof.
  intros (Hf & Hr & Hty & Hnd) Hi.
  destruct (insert_inv s x s' Hi Hty)
    as [[_ ->]|(Hc & Hroom & Hmax & Ha & Hf' & Hl & He)]; [done|].
  apply contains_false in Hc as [_ Hnin].
  destruct Hr as (H0 & H1 & H2).
  unfold wf, range_ok, I2. rewrite Hf', Hl, He, Ha, length_insert.
  split_and!; try lia.
  apply NoDup_app. split_and!; [done| |apply NoDup_singleton].
  intros v Hv ->%list_elem_of_singleton. done.
Qed.

Lemma wf_remove s x s' : wf s → remove s x = Some s' → wf s'.
Proof.
  intros (Hf & Hr & Hty & Hnd) Hrem.
  destruct (remove_inv s x s' Hrem Hr) as [[_ ->]|(Hin & Hf' & Hl & He & Hperm)];
    [unfold INT_MAX; lia|done|done|].
  pose proof (active_length s Hr) as Hlen.
  pose proof (Permutation_length Hperm) as Hplen. simpl in Hplen.
  destruct Hr as (H0 & H1 & H2).
  unfold wf, range_ok, I2. rewrite Hf', Hl, He.
  split_and!; try lia.
  unfold I2 in Hnd. rewrite Hperm in Hnd. by apply NoDup_cons in Hnd as [_ ?].
Qed.

Lemma wf_on_object st a f st' :
  (∀ s s', wf s → f s = Some s' → wf s') →
  Forall wf st → on_object st a f = Some st' → Forall wf st'.
Proof.
  intros Hf Hst. unfold on_object.
  destruct (st !! a) as [s|] eqn:Hs; [|done]. simpl.
  destruct (f s) as [s'|] eqn:Hfs; [|done]. simpl.
  intros [= <-]. apply Forall_insert; [done|].
  eapply Hf; [|done]. by eapply Forall_lookup_1.
Qed.

Lemma wf_exec_op st o st' : Forall wf st → exec_op st o = Some st' → Forall wf st'.
Proof.
  intros Hst. destruct o as [c| |a c|a x|a x|a x b|a]; simpl.
  - intros [= <-]. apply Forall_app. split; [done|].
    apply Forall_singleton, wf_create.
  - intros [= <-]. apply Forall_app. split; [done|].
    apply Forall_singleton, wf_create_default.
  - apply wf_on_object; [|done]. intros s s' _ [= <-]. apply wf_init.
  - apply wf_on_object; [|done]. intros s s'. apply wf_insert.
  - apply wf_on_object; [|done]. intros s s'. apply wf_remove.
  - destruct (on_object st a _) as [st1|] eqn:H1; [|done]. simpl.
    apply wf_on_object; [intros s s'; apply wf_insert|].
    revert H1. apply wf_on_object; [|done]. intros s s'. apply wf_remove.
  - apply wf_on_object; [|done]. intros s s' _ [= <-]. apply wf_clear.
Qed.

Lemma wf_run ops : ∀ st st', Forall wf st → run st ops = Some st' → Forall wf st'.
Proof.
  induction ops as [|o ops IH]; intros st st' Hst; simpl.
  - by intros [= <-].
  - destruct (exec_op st o) as [st1|] eqn:H1; [|done]. simpl.
    apply IH. by eapply wf_exec_op.
Qed.

(** ** move_to in the store *)

(** Between two different objects [move_to] of the store is [move_to] of
    the pair. *)
Lemma exec_move_to_distinct st (a b : nat) x A B :
  a ≠ b → st !! a = Some A → st !! b = Some B →
  exec_op st (OpMoveTo a x b)
  = '(A', B') ← move_to A x B; Some (<[b := B']> (<[a := A']> st)).
Proof.
  intros Hab HA HB. unfold exec_op, on_object, move_to. rewrite HA. simpl.
  destruct (remove A x) as [A'|]; simpl; [|done].
  rewrite list_lookup_insert_ne by done. rewrite HB. simpl.
  by destruct (insert B x).
Qed.

(** [a.move_to(x, a)]: the insert sees the object as the remove left it. *)
Lemma exec_move_to_self st (a : nat) x A :
  st !! a = Some A →
  exec_op st (OpMoveTo a x a)
  = A' ← remove A x; A'' ← insert A' x; Some (<[a := A'']> st).
Proof.
  intros HA. unfold exec_op, on_object. rewrite HA. simpl.
  destruct (remove A x) as [A'|]; simpl; [|done].
  rewrite list_lookup_insert_eq by by eapply lookup_lt_Some.
  simpl. destruct (insert A' x); simpl; [|done].
  by rewrite list_insert_insert_eq.
Qed.

(** ** init_from_adj *)

Lemma init_from_adj_layout pre act post (adj : list (list Z)) (node : Z) neighbors :
  0 ≤ node → adj !! Z.to_nat node = Some neighbors →
  Z.of_nat (length adj) < 4294967296 →
  Z.of_nat (length pre + length (merge_new act neighbors)) ≤ Z.of_nat (length adj) →
  Z.of_nat (length pre + length (merge_new act neighbors)) ≤ INT_MAX + 1 →
  ∃ post',
    init_from_adj (layout pre act post) adj node
    = Some (layout pre (merge_new act neighbors) post') ∧
    capacity (layout pre (merge_new act neighbors) post') = Z.of_nat (length adj).
Proof.
  intros Hnode Hadj Hu Hcap Hmax.
  pose proof (merge_new_length act neighbors) as Hge.
  unfold init_from_adj.
  rewrite to_unsigned_id by lia.
  rewrite resize_layout by lia.
  rewrite decide_True by done. rewrite Hadj. simpl.
  set (post1 := vec_resize post _ _).
  assert (Z.of_nat (length post1)
          = Z.of_nat (length adj) - Z.of_nat (length pre + length act)) as Hlen.
  { unfold post1. rewrite vec_resize_length; lia. }
  rewrite insert_all_layout by lia.
  eexists. split; [done|].
  unfold capacity, layout; simpl. rewrite !length_app, length_drop. lia.
Qed.

(** ** Node identifiers and the range of the cursor *)

(** There are 2^31 node identifiers, so no more distinct ones in a list. *)
Lemma node_ids_bounded (l : list Z) :
  NoDup l → Forall node_id l → Z.of_nat (length l) ≤ INT_MAX + 1.
Proof.
  intros Hnd Hall.
  assert (l ⊆+ seqZ 0 (INT_MAX + 1)) as Hsub.
  { apply NoDup_submseteq; [exact Hnd|].
    intros v Hv. apply elem_of_seqZ.
    rewrite Forall_forall in Hall. specialize (Hall v Hv).
    unfold node_id in Hall. lia. }
  apply submseteq_length in Hsub.
  rewrite length_seqZ in Hsub. unfold INT_MAX in *. lia.
Qed.

(** A set of node identifiers that lacks one of them has [last] below
    [INT_MAX]: [last++] and [index++] stay in the range of [int]. *)
Lemma absent_node_room s x :
  wf s → node_members s → node_id x → x ∉ active s → last s < INT_MAX.
Proof.
  intros (Hf & Hr & _ & Hnd) Hmem Hx Hnin.
  pose proof (active_length s Hr) as Hlen.
  assert (Z.of_nat (length (x :: active s)) ≤ INT_MAX + 1) as Hb.
  { apply node_ids_bounded; [by apply NoDup_cons|by apply Forall_cons]. }
  simpl in Hb. lia.
Qed.

Lemma merge_new_node_ids act l :
  Forall node_id act → Forall node_id l → Forall node_id (merge_new act l).
Proof.
  intros Hact Hl. apply Forall_forall. intros v [Hv|Hv]%merge_new_elem.
  - by eapply Forall_forall in Hact.
  - by eapply Forall_forall in Hl.
Qed.

Lemma reachable_wf (st : list sparse_array_set) : reachable st → Forall wf st.
Proof. intros [ops Hrun]. by eapply (wf_run ops [] st). Qed.

Lemma wf_size s : wf s → size s = last s + 1.
Proof.
  intros (Hf & Hr & Hty & _).
  rewrite size_active, active_length by done. lia.
Qed.

(** ** init_from_adj on fresh sets and on sets with members *)

(** [init_from_adj] on a set in any reachable state: the vector gets
    [adj.size()] slots and the neighbors go behind the members it has. *)
Lemma init_from_adj_on_set
    (s : sparse_array_set) (adj : list (list Z)) (node : Z) (neighbors : list Z) :
  wf s →
  0 ≤ node → adj !! Z.to_nat node = Some neighbors →
  Z.of_nat (length adj) < 4294967296 →
  Z.of_nat (length (merge_new (active s) neighbors)) ≤ Z.of_nat (length adj) →
  Z.of_nat (length (merge_new (active s) neighbors)) ≤ INT_MAX + 1 →
  ∃ s', init_from_adj s adj node = Some s' ∧
        init_from_adj s adj node
        = insert_all (resize s (Z.of_nat (length adj))) neighbors ∧
        capacity s' = Z.of_nat (length adj) ∧
        active s' = merge_new (active s) neighbors ∧
        size s' = Z.of_nat (length (merge_new (active s) neighbors)) ∧
        (∀ v, contains s' v = Some true ↔ contains s v = Some true ∨ v ∈ neighbors).
Proof.
  intros (Hf & Hr & _ & _) Hnode Hadj Hu Hcap Hmax.
  assert (init_from_adj s adj node
          = insert_all (resize s (Z.of_nat (length adj))) neighbors) as Hdef.
  { unfold init_from_adj.
    rewrite to_unsigned_id by lia.
    rewrite decide_True by done. by rewrite Hadj. }
  pose proof (layout_intro s Hr) as Hs.
  rewrite Hf in Hs. change (Z.to_nat 0) with 0%nat in Hs. rewrite take_0 in Hs.
  set (post := drop (Z.to_nat (last s + 1)) (elements s)) in *.
  destruct (init_from_adj_layout [] (active s) post adj node neighbors)
    as (post' & Hinit & Hc); [done|done|done|simpl; lia|simpl; lia|].
  rewrite <- Hs in Hinit. rewrite <- Hdef, Hinit.
  pose proof (layout_range_ok [] (merge_new (active s) neighbors) post') as Hr'.
  eexists. split; [done|]. split; [done|]. split; [done|].
  rewrite size_active, layout_active by (done || simpl; lia).
  split_and!; [done|done|].
  intros v. rewrite !contains_member by done.
  rewrite layout_active, merge_new_elem. tauto.
Qed.

Lemma init_from_adj_members
    (s : sparse_array_set) (adj : list (list Z)) (node : Z) (neighbors : list Z) :
  range_ok s →
  0 ≤ node → adj !! Z.to_nat node = Some neighbors →
  Z.of_nat (length adj) < 4294967296 →
  first s + Z.of_nat (length (merge_new (active s) neighbors)) ≤ Z.of_nat (length adj) →
  first s + Z.of_nat (length (merge_new (active s) neighbors)) ≤ INT_MAX + 1 →
  ∃ s', init_from_adj s adj node = Some s' ∧
        first s' = first s ∧ last s ≤ last s' ∧
        (∀ v, contains s v = Some true → contains s' v = Some true) ∧
        (∀ v, contains s' v = Some true ↔ contains s v = Some true ∨ v ∈ neighbors).
Proof.
  intros Hr Hnode Hadj Hu Hcap Hmax.
  pose proof (active_length s Hr) as Hlen.
  pose proof (merge_new_length (active s) neighbors) as Hge.
  pose proof (layout_intro s Hr) as Hs.
  set (pre := take (Z.to_nat (first s)) (elements s)) in *.
  set (post := drop (Z.to_nat (last s + 1)) (elements s)) in *.
  assert (Z.of_nat (length pre) = first s) as Hpre.
  { unfold pre. destruct Hr as (H0 & H1 & H2). rewrite length_take. lia. }
  destruct (init_from_adj_layout pre (active s) post adj node neighbors)
    as (post' & Hinit & _); [done|done|done|lia|lia|].
  rewrite <- Hs in Hinit. rewrite Hinit.
  eexists. split; [done|]. simpl.
  assert (∀ v, contains (layout pre (merge_new (active s) neighbors) post') v = Some true
               ↔ contains s v = Some true ∨ v ∈ neighbors) as Hmem.
  { intros v. rewrite !contains_member by (done || apply layout_range_ok).
    rewrite layout_active, merge_new_elem. tauto. }
  split_and!; [lia|lia| |done].
  intros v Hv. apply Hmem. by left.
Qed.

(** * The properties of the specification *)

(** C1: inserting [n] pairwise distinct values (node identifiers) into a
    fresh set, with [n] at most the capacity, returns; afterwards
    [contains] is true of each value and [size()] is [n]. *)
Theorem insert_distinct_roundtrip (s : sparse_array_set) (l : list Z) :
  fresh s → NoDup l → Forall node_id l →
  Z.of_nat (length l) ≤ capacity s →
  ∃ s', insert_all s l = Some s' ∧
        Forall (λ v, contains s' v = Some true) l ∧
        size s' = Z.of_nat (length l).
Proof.
  intros Hs Hnd Hids Hcap. unfold capacity in Hcap.
  pose proof (node_ids_bounded l Hnd Hids) as Hmax.
  rewrite (fresh_layout s Hs).
  assert (merge_new [] l = l) as Hm by by apply (merge_new_fresh []).
  rewrite insert_all_layout by (rewrite Hm; simpl; lia).
  rewrite Hm. eexists. split; [done|]. split.
  - apply Forall_forall. intros v Hv.
    rewrite layout_contains. f_equal. by apply scan_true.
  - rewrite size_active.
    + by rewrite layout_active.
    + apply layout_range_ok.
    + simpl. lia.
Qed.

Lemma insert_distinct_roundtrip_witness :
  ∃ s', insert_all (create 4) [5; 7; 9] = Some s' ∧
        Forall (λ v, contains s' v = Some true) [5; 7; 9] ∧
        size s' = Z.of_nat (length [5; 7; 9]).
Proof.
  apply (insert_distinct_roundtrip (create 4) [5; 7; 9]).
  - left. exists 4. reflexivity.
  - apply (bool_decide_unpack _). vm_compute. exact I.
  - apply (bool_decide_unpack _). vm_compute. exact I.
  - unfold capacity. simpl. lia.
Defined.

(** C2: when the set [A] contains the node identifier [x], the set [B] of
    node identifiers does not and [B] has spare capacity, [A.move_to(x, B)]
    returns; afterwards [A] does not contain [x], [B] does, [A.size()] is
    one less and [B.size()] is one more. *)
Theorem move_to_moves (A B : sparse_array_set) (x : Z) :
  wf A → wf B → node_members B → node_id x →
  contains A x = Some true → contains B x = Some false →
  size B < capacity B →
  ∃ A' B', move_to A x B = Some (A', B') ∧
           contains A' x = Some false ∧ contains B' x = Some true ∧
           size A' = size A - 1 ∧ size B' = size B + 1.
Proof.
  intros HwfA HwfB HmemB Hx HA HB Hroom.
  rewrite (wf_size B HwfB) in Hroom.
  assert (last B < INT_MAX) as Hmax.
  { apply (absent_node_room B x); try done. by apply contains_false in HB as [_ ?]. }
  destruct HwfA as (_ & HrA & HtyA & HndA). destruct HwfB as (_ & HrB & HtyB & _).
  apply contains_true in HA as [_ HinA].
  destruct (remove_member A x HrA HtyA HinA)
    as (k & moved & A' & Hrem & Hk & _ & _ & He & Hf & Hl & Hperm).
  destruct (insert_new B x HB Hroom Hmax) as (B' & Hins & Hact & HfB & HlB & HeB).
  exists A', B'. unfold move_to. rewrite Hrem, Hins. simpl.
  unfold I2 in HndA. rewrite Hperm in HndA. apply NoDup_cons in HndA as [Hnin _].
  pose proof (active_length A HrA) as HlenA.
  apply Permutation_length in Hperm. simpl in Hperm.
  pose proof HrA as (H0 & H1 & H2). pose proof HrB as (H0B & H1B & H2B).
  assert (range_ok A') as HrA'.
  { unfold range_ok. rewrite Hf, Hl, He, !length_insert. lia. }
  assert (range_ok B') as HrB'.
  { unfold range_ok. rewrite HfB, HlB, HeB, length_insert. unfold capacity in Hroom. lia. }
  split_and!; [done|by apply contains_false| | |].
  - apply contains_member; [done|]. rewrite Hact.
    apply elem_of_app. right. by apply list_elem_of_singleton.
  - rewrite !size_active by (done || lia). lia.
  - rewrite !size_active by (done || lia). rewrite Hact, length_app. simpl. lia.
Qed.

Lemma move_to_moves_witness :
  ∃ A' B', move_to (mk_set [5; 7; 9] 0 2) 5 (mk_set [4; -1; -1] 0 0) = Some (A', B') ∧
           contains A' 5 = Some false ∧ contains B' 5 = Some true ∧
           size A' = size (mk_set [5; 7; 9] 0 2) - 1 ∧
           size B' = size (mk_set [4; -1; -1] 0 0) + 1.
Proof.
  apply (move_to_moves (mk_set [5; 7; 9] 0 2) (mk_set [4; -1; -1] 0 0) 5).
  - apply (bool_decide_unpack _). vm_compute. exact I.
  - apply (bool_decide_unpack _). vm_compute. exact I.
  - apply (bool_decide_unpack _). vm_compute. exact I.
  - apply (bool_decide_unpack _). vm_compute. exact I.
  - reflexivity.
  - reflexivity.
  - vm_compute. reflexivity.
Defined.

(** C3: [insert(x)] on a set that contains [x] returns and leaves the whole
    object as it was (vector, cursors, hence size and members); after any
    [insert(x)] that returned, a second [insert(x)] changes nothing and
    [contains(x)] is true. *)
Theorem insert_idempotent (s : sparse_array_set) (x : Z) :
  (contains s x = Some true → insert s x = Some s) ∧
  (∀ s1, wf s → insert s x = Some s1 →
     ∃ s2, insert s1 x = Some s2 ∧ s2 = s1 ∧ size s2 = size s1 ∧
           contains s2 x = Some true).
Proof.
  split; [apply insert_member|].
  intros s1 (_ & _ & Hty & _) Hi.
  assert (contains s1 x = Some true) as Hc.
  { destruct (insert_inv s x s1 Hi Hty) as [[Hc ->]|(Hc & Hroom & Hmax & Ha & Hf & Hl & He)];
      [done|].
    apply contains_false in Hc as [(H0 & H1 & H2) _].
    apply contains_member.
    - unfold range_ok. rewrite Hf, Hl, He, length_insert. lia.
    - rewrite Ha. apply elem_of_app. right. apply list_elem_of_singleton. done. }
  exists s1. by rewrite (insert_member s1 x Hc).
Qed.

Lemma insert_idempotent_witness :
  insert (mk_set [5; -1] 0 0) 5 = Some (mk_set [5; -1] 0 0) ∧
  (∃ s2, insert (mk_set [5; 7; -1] 0 1) 7 = Some s2 ∧ s2 = mk_set [5; 7; -1] 0 1 ∧
         size s2 = size (mk_set [5; 7; -1] 0 1) ∧ contains s2 7 = Some true).
Proof.
  split.
  - apply (proj1 (insert_idempotent (mk_set [5; -1] 0 0) 5)). reflexivity.
  - apply (proj2 (insert_idempotent (mk_set [5; -1; -1] 0 0) 7)
             (mk_set [5; 7; -1] 0 1)).
    + apply (bool_decide_unpack _). vm_compute. exact I.
    + reflexivity.
Defined.

(** C4: on a set of node identifiers that does not contain the node
    identifier [x], [remove(x)] returns and leaves the object as it was:
    same vector, same cursors, hence same size and members. *)
Theorem remove_absent_noop (s : sparse_array_set) (x : Z) :
  wf s → node_members s → node_id x →
  contains s x = Some false →
  remove s x = Some s.
Proof.
  intros Hwf Hmem Hx Hc. apply remove_absent; [done|].
  apply (absent_node_room s x); try done.
  by apply contains_false in Hc as [_ ?].
Qed.

Lemma remove_absent_noop_witness :
  remove (mk_set [5; 7; 9; -1] 0 2) 4 = Some (mk_set [5; 7; 9; -1] 0 2).
Proof.
  apply (remove_absent_noop (mk_set [5; 7; 9; -1] 0 2) 4).
  - apply (bool_decide_unpack _). vm_compute. exact I.
  - apply (bool_decide_unpack _). vm_compute. exact I.
  - apply (bool_decide_unpack _). vm_compute. exact I.
  - reflexivity.
Defined.

(** C5: in every state that a sequence of constructor, [init], [insert],
    [remove], [move_to] and [clear] calls reaches, each of them having
    returned, the values in the active range of every set are pairwise
    distinct. *)
Theorem reachable_I2 (st : list sparse_array_set) :
  reachable st → Forall I2 st.
Proof.
  intros Hst. eapply Forall_impl; [by apply reachable_wf|].
  by intros s (_ & _ & _ & ?).
Qed.

Lemma reachable_I2_witness :
  Forall I2 [mk_set [9; 7; 5] 0 0; mk_set [5; 7; -1] 0 1].
Proof.
  apply reachable_I2.
  exists [OpCreate 3; OpInsert 0 5; OpInsert 0 7; OpInsert 0 9; OpCreate 3;
          OpMoveTo 0 5 1; OpInsert 0 7; OpMoveTo 0 7 1].
  vm_compute. reflexivity.
Defined.

(** C6, as the code has it: [clear()] sets [first] to 0 and [last] to -1
    and writes no slot, so [size()] is 0 whatever the set held; when the
    vector has at least one slot, an [insert(x)] after it returns, and the
    set then holds [x] alone, in slot 0. *)
Theorem clear_resets_cursors (s : sparse_array_set) (x : Z) :
  (size (clear s) = 0 ∧ first (clear s) = 0 ∧ last (clear s) = -1 ∧
   elements (clear s) = elements s) ∧
  (elements s ≠ [] →
   ∃ s', insert (clear s) x = Some s' ∧ active s' = [x] ∧ size s' = 1 ∧
         (∀ y, contains s' y = Some (bool_decide (y = x))) ∧
         elements s' = <[0%nat := x]> (elements s)).
Proof.
  split; [by split_and!|].
  intros Hne. destruct s as [[|y e] f l]; [done|]. clear Hne.
  exists (mk_set (x :: e) 0 0). split_and!; try reflexivity.
  intros z. rewrite contains_range_ok by (unfold range_ok; simpl; lia).
  unfold active; simpl.
  case_decide; [by rewrite bool_decide_eq_true_2|by rewrite bool_decide_eq_false_2].
Qed.

Lemma clear_resets_cursors_witness :
  ∃ s', insert (clear (mk_set [3; 4; 9] 0 2)) 8 = Some s' ∧ active s' = [8] ∧
        size s' = 1 ∧ (∀ y, contains s' y = Some (bool_decide (y = 8))) ∧
        elements s' = <[0%nat := 8]> [3; 4; 9].
Proof.
  apply (proj2 (clear_resets_cursors (mk_set [3; 4; 9] 0 2) 8)). simpl. discriminate.
Defined.

(** C6 as stated fails: a default-constructed set has no slot, and an
    [insert] after [clear()] writes past the end of the vector. *)
Lemma clear_then_insert_no_slot : insert (clear create_default) 5 = None.
Proof. reflexivity. Qed.

(** C7, as the code has it: [init_from_adj(adj, node)] resizes the vector
    to [adj.size()] slots and inserts the neighbors of [node] in their
    order, each value once, behind the members the set has; it returns
    when these members and the neighbors the set does not hold yet fit
    into [adj.size()] slots.  On a fresh set, with the adjacency
    [{0: [1,2,3], 1: [0], 2: [0], 3: [0]}] and node 0 the set has size 3
    and contains exactly 1, 2 and 3. *)
Theorem init_from_adj_inserts_neighbors
    (s : sparse_array_set) (adj : list (list Z)) (node : Z) (neighbors : list Z) :
  (wf s → node_members s →
   0 ≤ node → adj !! Z.to_nat node = Some neighbors →
   Forall node_id neighbors →
   Z.of_nat (length adj) < 4294967296 →
   Z.of_nat (length (merge_new (active s) neighbors)) ≤ Z.of_nat (length adj) →
   ∃ s', init_from_adj s adj node = Some s' ∧
         init_from_adj s adj node
         = insert_all (resize s (Z.of_nat (length adj))) neighbors ∧
         capacity s' = Z.of_nat (length adj) ∧
         active s' = merge_new (active s) neighbors ∧
         size s' = Z.of_nat (length (merge_new (active s) neighbors)) ∧
         (∀ v, contains s' v = Some true ↔ contains s v = Some true ∨ v ∈ neighbors)) ∧
  (∀ s0, fresh s0 →
     ∃ s', init_from_adj s0 [[1; 2; 3]; [0]; [0]; [0]] 0 = Some s' ∧
           size s' = 3 ∧ active s' = [1; 2; 3] ∧
           (∀ v, contains s' v = Some true ↔ v ∈ [1; 2; 3])).
Proof.
  split.
  - intros Hwf Hmem Hnode Hadj Hids Hu Hcap.
    apply init_from_adj_on_set; try done.
    apply node_ids_bounded.
    + apply merge_new_NoDup. by destruct Hwf as (_ & _ & _ & ?).
    + by apply merge_new_node_ids.
  - intros s0 Hs0.
    assert (wf s0 ∧ active s0 = []) as [Hwf Ha0].
    { destruct Hs0 as [[c ->]|[->|(s1 & c & ->)]];
        (split; [apply wf_create || apply wf_create_default || apply wf_init|done]). }
    destruct (init_from_adj_on_set s0 [[1; 2; 3]; [0]; [0]; [0]] 0 [1; 2; 3])
      as (s' & Hs' & _ & _ & Ha & Hsz & Hmem); try done.
    + rewrite Ha0. simpl. lia.
    + rewrite Ha0. unfold INT_MAX. simpl. lia.
    + rewrite Ha0 in Ha, Hsz. exists s'. split_and!; try done.
      intros v. rewrite Hmem, contains_true, Ha0, elem_of_nil. tauto.
Qed.

Lemma init_from_adj_inserts_neighbors_witness :
  (∃ s', init_from_adj (mk_set [8; 2; -1] 0 1) [[1; 2; 3]; [0]; [0]; [0]; []] 0 = Some s' ∧
         init_from_adj (mk_set [8; 2; -1] 0 1) [[1; 2; 3]; [0]; [0]; [0]; []] 0
         = insert_all (resize (mk_set [8; 2; -1] 0 1)
                              (Z.of_nat (length [[1; 2; 3]; [0]; [0]; [0]; []])))
                      [1; 2; 3] ∧
         capacity s' = Z.of_nat (length [[1; 2; 3]; [0]; [0]; [0]; []]) ∧
         active s' = merge_new (active (mk_set [8; 2; -1] 0 1)) [1; 2; 3] ∧
         size s' = Z.of_nat (length (merge_new (active (mk_set [8; 2; -1] 0 1)) [1; 2; 3])) ∧
         (∀ v, contains s' v = Some true
               ↔ contains (mk_set [8; 2; -1] 0 1) v = Some true ∨ v ∈ [1; 2; 3])) ∧
  (∃ s', init_from_adj (create 0) [[1; 2; 3]; [0]; [0]; [0]] 0 = Some s' ∧
         size s' = 3 ∧ active s' = [1; 2; 3] ∧
         (∀ v, contains s' v = Some true ↔ v ∈ [1; 2; 3])).
Proof.
  split.
  - apply (proj1 (init_from_adj_inserts_neighbors
                    (mk_set [8; 2; -1] 0 1) [[1; 2; 3]; [0]; [0]; [0]; []] 0 [1; 2; 3])).
    + apply (bool_decide_unpack _). vm_compute. exact I.
    + apply (bool_decide_unpack _). vm_compute. exact I.
    + lia.
    + reflexivity.
    + apply (bool_decide_unpack _). vm_compute. exact I.
    + simpl. lia.
    + simpl. lia.
  - apply (proj2 (init_from_adj_inserts_neighbors
                    (create 0) [[1; 2; 3]; [0]; [0]; [0]] 0 [1; 2; 3]) (create 0)).
    left. by exists 0.
Defined.

(** C7 as stated fails: the adjacency [{0: [1,2,3], 1: [0]}] has two
    entries, the vector is resized to two slots, and the third insert
    writes past its end. *)
Lemma init_from_adj_two_slots :
  init_from_adj create_default [[1; 2; 3]; [0]] 0 = None ∧
  init_from_adj (create 8) [[1; 2; 3]; [0]] 0 = None.
Proof. split; reflexivity. Qed.

(** C8: for every capacity [c] a set built by the constructor (or by the
    default constructor), and any set after [init(c)], has [size() == 0]
    and [empty() == true]. *)
Theorem fresh_set_is_empty (c : Z) (s : sparse_array_set) :
  (size (create c) = 0 ∧ empty (create c) = true) ∧
  (size create_default = 0 ∧ empty create_default = true) ∧
  (size (init s c) = 0 ∧ empty (init s c) = true).
Proof. split_and!; reflexivity. Qed.

(** C9: [init_from_adj] leaves [first] alone and moves [last] only by
    inserting.  On a set of node identifiers that has members already,
    when the prior members and the neighbors of [node] together fit into
    [adj.size()] slots, the call returns, every prior member is still a
    member, and the members are the prior members and the neighbors of
    [node]. *)
Theorem init_from_adj_keeps_members
    (s : sparse_array_set) (adj : list (list Z)) (node : Z) (neighbors : list Z) :
  wf s → node_members s → Forall node_id neighbors →
  0 ≤ node → adj !! Z.to_nat node = Some neighbors →
  Z.of_nat (length adj) < 4294967296 →
  Z.of_nat (length (merge_new (active s) neighbors)) ≤ Z.of_nat (length adj) →
  ∃ s', init_from_adj s adj node = Some s' ∧
        first s' = first s ∧ last s ≤ last s' ∧
        (∀ v, contains s v = Some true → contains s' v = Some true) ∧
        (∀ v, contains s' v = Some true ↔ contains s v = Some true ∨ v ∈ neighbors).
Proof.
  intros (Hf & Hr & _ & Hnd) Hmem Hids Hnode Hadj Hu Hcap.
  apply init_from_adj_members; try done; rewrite Hf, Z.add_0_l; [done|].
  apply node_ids_bounded.
  - by apply merge_new_NoDup.
  - by apply merge_new_node_ids.
Qed.

Lemma init_from_adj_keeps_members_witness :
  ∃ s', init_from_adj (mk_set [8; 2; -1] 0 1) [[1; 2; 3]; [0]; [0]; [0]; []] 0 = Some s' ∧
        first s' = 0 ∧ 1 ≤ last s' ∧
        (∀ v, contains (mk_set [8; 2; -1] 0 1) v = Some true → contains s' v = Some true) ∧
        (∀ v, contains s' v = Some true
              ↔ contains (mk_set [8; 2; -1] 0 1) v = Some true ∨ v ∈ [1; 2; 3]).
Proof.
  apply (init_from_adj_keeps_members
           (mk_set [8; 2; -1] 0 1) [[1; 2; 3]; [0]; [0]; [0]; []] 0 [1; 2; 3]).
  - apply (bool_decide_unpack _). vm_compute. exact I.
  - apply (bool_decide_unpack _). vm_compute. exact I.
  - apply (bool_decide_unpack _). vm_compute. exact I.
  - lia.
  - reflexivity.
  - simpl. lia.
  - simpl. lia.
Defined.

(** C10: when [x] is in slot [i] of the active range of a set, [remove(x)]
    returns; afterwards slot [i] holds what the slot at the old [last]
    held, the slot at the old [last] holds [x], every other slot is
    untouched, [last] is one less, and the old active values are the new
    ones plus [x], as multisets. *)
Theorem remove_swaps (s : sparse_array_set) (x : Z) (i : nat) :
  wf s → Z.of_nat i ≤ last s → elements s !! i = Some x →
  ∃ s' moved,
    remove s x = Some s' ∧
    elements s !! Z.to_nat (last s) = Some moved ∧
    elements s' !! i = Some moved ∧
    elements s' !! Z.to_nat (last s) = Some x ∧
    (∀ j : nat, j ≠ i → j ≠ Z.to_nat (last s) → elements s' !! j = elements s !! j) ∧
    first s' = first s ∧ last s' = last s - 1 ∧
    active s ≡ₚ x :: active s'.
Proof.
  intros (Hf0 & Hr & Hty & Hnd) Hi Hx.
  pose proof Hr as (H0 & H1 & H2).
  set (k0 := (i - Z.to_nat (first s))%nat).
  assert (active s !! k0 = Some x) as Hk0.
  { rewrite active_lookup by lia. rewrite <- Hx. f_equal. lia. }
  destruct (remove_member s x Hr Hty (list_elem_of_lookup_2 _ _ _ Hk0))
    as (k & moved & s' & Hrem & Hk & _ & Hmoved & He & Hf & Hl & Hperm).
  assert (k = k0) as -> by (eapply NoDup_lookup; done).
  replace (Z.to_nat (first s) + k0)%nat with i in He by lia.
  exists s', moved. split_and!; try done.
  - rewrite He. destruct (decide (i = Z.to_nat (last s))) as [Heq|Hne].
    + rewrite <- Heq in *. rewrite list_lookup_insert_eq by (rewrite length_insert; lia).
      congruence.
    + rewrite list_lookup_insert_ne by done.
      apply list_lookup_insert_eq. lia.
  - rewrite He. apply list_lookup_insert_eq. rewrite length_insert. lia.
  - intros j Hji Hjl. rewrite He.
    rewrite !list_lookup_insert_ne by done. done.
Qed.

Lemma remove_swaps_witness :
  ∃ s' moved,
    remove (mk_set [5; 7; 9; 11; -1] 0 3) 7 = Some s' ∧
    [5; 7; 9; 11; -1] !! Z.to_nat 3 = Some moved ∧
    elements s' !! 1%nat = Some moved ∧
    elements s' !! Z.to_nat 3 = Some 7 ∧
    (∀ j : nat, j ≠ 1%nat → j ≠ Z.to_nat 3 →
                elements s' !! j = [5; 7; 9; 11; -1] !! j) ∧
    first s' = 0 ∧ last s' = 3 - 1 ∧
    [5; 7; 9; 11] ≡ₚ 7 :: active s'.
Proof.
  apply (remove_swaps (mk_set [5; 7; 9; 11; -1] 0 3) 7 1).
  - apply (bool_decide_unpack _). vm_compute. exact I.
  - simpl. lia.
  - reflexivity.
Defined.

(** * Values that are not node identifiers

    The properties of [insert], [remove] and [move_to] above are stated
    for sets of node identifiers.  The hypothesis is needed: the capacity
    is an [unsigned int] and the cursors are [int]s, and with negative
    members a set can hold 2^31 values while some [int] is not among
    them. *)

Section below_zero.
Variable n : nat.

Lemma below_zero_length : length (below_zero n) = n.
Proof. unfold below_zero. by rewrite length_fmap, length_seq. Qed.

Lemma below_zero_negative v : v ∈ below_zero n → v < 0.
Proof.
  unfold below_zero. intros (k & -> & _)%list_elem_of_fmap. lia.
Qed.

Lemma below_zero_NoDup : NoDup (below_zero n).
Proof.
  unfold below_zero. apply NoDup_fmap_2; [|apply NoDup_seq].
  intros j k Hjk. lia.
Qed.

Lemma below_zero_layout post :
  Z.of_nat n = INT_MAX + 1 →
  mk_set (below_zero n ++ post) 0 INT_MAX = layout [] (below_zero n) post.
Proof.
  intros Hn. unfold layout. simpl. rewrite below_zero_length. f_equal. lia.
Qed.

(** [n] distinct inserts fill a fresh set of capacity [n + k]. *)
Lemma below_zero_built (k : nat) :
  Z.of_nat n = INT_MAX + 1 →
  insert_all (create (Z.of_nat (n + k))) (below_zero n)
  = Some (mk_set (below_zero n ++ replicate k (-1)) 0 INT_MAX).
Proof.
  intros Hn. rewrite below_zero_layout by done.
  change (create (Z.of_nat (n + k)))
    with (layout [] [] (replicate (Z.to_nat (Z.of_nat (n + k))) (-1))).
  assert (merge_new [] (below_zero n) = below_zero n) as Hm.
  { apply (merge_new_fresh []). simpl. apply below_zero_NoDup. }
  rewrite insert_all_layout.
  - rewrite Hm, below_zero_length. simpl. rewrite Nat.sub_0_r.
    rewrite Nat2Z.id, drop_replicate. do 3 f_equal. lia.
  - rewrite Hm, below_zero_length, length_replicate. simpl. lia.
  - rewrite Hm, below_zero_length. simpl. lia.
Qed.

Lemma remove_absent_at_limit :
  Z.of_nat n = INT_MAX + 1 →
  contains (mk_set (below_zero n) 0 INT_MAX) 0 = Some false ∧
  remove (mk_set (below_zero n) 0 INT_MAX) 0 = None.
Proof.
  intros Hn.
  assert (contains (mk_set (below_zero n) 0 INT_MAX) 0 = Some false) as Hc.
  { rewrite <- (app_nil_r (below_zero n)), below_zero_layout by done.
    rewrite layout_contains. f_equal. apply scan_false.
    intros Hin%below_zero_negative. lia. }
  split; [done|].
  apply remove_absent_overflow; [done|simpl; unfold INT_MAX; lia|done].
Qed.

Lemma insert_at_limit post :
  Z.of_nat n = INT_MAX + 1 →
  contains (mk_set (below_zero n ++ post) 0 INT_MAX) 0 = Some false ∧
  insert (mk_set (below_zero n ++ post) 0 INT_MAX) 0 = None.
Proof.
  intros Hn. rewrite below_zero_layout by done.
  assert (0 ∉ below_zero n) as Hnin.
  { intros Hin%below_zero_negative. lia. }
  split.
  - rewrite layout_contains. f_equal. by apply scan_false.
  - apply insert_layout_overflow; [done|].
    rewrite below_zero_length. simpl. lia.
Qed.

Lemma insert_all_beyond_limit :
  Z.of_nat n = INT_MAX + 1 →
  NoDup (below_zero n ++ [0]) ∧
  Z.of_nat (length (below_zero n ++ [0])) ≤ capacity (create (Z.of_nat (n + 1))) ∧
  insert_all (create (Z.of_nat (n + 1))) (below_zero n ++ [0]) = None.
Proof.
  intros Hn. split_and!.
  - apply NoDup_app. split_and!; [apply below_zero_NoDup| |apply NoDup_singleton].
    intros v Hv%below_zero_negative ->%list_elem_of_singleton. lia.
  - unfold capacity, create. cbn [elements].
    rewrite length_app, below_zero_length, length_replicate. cbn [length]. lia.
  - rewrite insert_all_app, below_zero_built by done. cbn [mbind option_bind].
    cbn [insert_all].
    destruct (insert_at_limit (replicate 1 (-1)) Hn) as [_ ->]. done.
Qed.

End below_zero.

Section move_to_limit.
Variable n : nat.
Hypothesis Hn : Z.of_nat n = INT_MAX + 1.

Lemma spare_set_wf : wf (mk_set (below_zero n ++ [-1]) 0 INT_MAX).
Proof.
  split_and!.
  - done.
  - rewrite below_zero_layout by done. apply layout_range_ok.
  - done.
  - unfold I2. rewrite below_zero_layout by done.
    rewrite layout_active. apply below_zero_NoDup.
Qed.

Lemma spare_set_size :
  size (mk_set (below_zero n ++ [-1]) 0 INT_MAX) = INT_MAX + 1 ∧
  capacity (mk_set (below_zero n ++ [-1]) 0 INT_MAX) = INT_MAX + 2.
Proof.
  split; [reflexivity|].
  unfold capacity. cbn [elements].
  rewrite length_app, below_zero_length. cbn [length]. lia.
Qed.

Lemma move_to_at_limit :
  move_to (mk_set [0] 0 0) 0 (mk_set (below_zero n ++ [-1]) 0 INT_MAX) = None.
Proof.
  unfold move_to.
  destruct (insert_at_limit n [-1] Hn) as [_ ->].
  by destruct (remove _ 0).
Qed.

End move_to_limit.

Lemma limit_nat : Z.of_nat (Z.to_nat 2147483648) = INT_MAX + 1.
Proof. rewrite Z2Nat.id; [reflexivity|]. discriminate. Qed.

(** [full_set] is what 2^31 inserts of distinct negative values build.  It
    satisfies the invariant of the class, and 0 is not a member; in
    [remove(0)] the test [index <= last] holds for every [int], [index++]
    wraps and the next read is out of the vector. *)
Lemma negative_members_remove :
  insert_all (create 2147483648) (below_zero (Z.to_nat 2147483648)) = Some full_set ∧
  wf full_set ∧
  contains full_set 0 = Some false ∧ remove full_set 0 = None.
Proof.
  split_and!.
  - pose proof (below_zero_built _ 0 limit_nat) as Hb.
    rewrite Nat.add_0_r in Hb. cbn [replicate] in Hb.
    rewrite app_nil_r in Hb. rewrite Z2Nat.id in Hb by discriminate. exact Hb.
  - unfold full_set. split_and!; [done| |done|].
    + rewrite <- (app_nil_r (below_zero _)), below_zero_layout by apply limit_nat.
      apply layout_range_ok.
    + unfold I2.
      rewrite <- (app_nil_r (below_zero _)), below_zero_layout by apply limit_nat.
      rewrite layout_active. apply below_zero_NoDup.
  - apply remove_absent_at_limit, limit_nat.
  - apply remove_absent_at_limit, limit_nat.
Qed.

(** [full_set_spare] has the same members and a free slot.  [insert(0)],
    and so [move_to] with it as the target, increments [last] beyond
    [INT_MAX] and writes out of the vector. *)
Lemma negative_members_move_to :
  wf (mk_set [0] 0 0) ∧ wf full_set_spare ∧
  contains (mk_set [0] 0 0) 0 = Some true ∧
  contains full_set_spare 0 = Some false ∧
  size full_set_spare < capacity full_set_spare ∧
  move_to (mk_set [0] 0 0) 0 full_set_spare = None.
Proof.
  unfold full_set_spare.
  destruct (spare_set_size _ limit_nat) as [-> ->].
  destruct (insert_at_limit _ [-1] limit_nat) as [-> _].
  rewrite (move_to_at_limit _ limit_nat).
  split_and!; [|apply spare_set_wf, limit_nat|reflexivity|reflexivity|lia|reflexivity].
  apply (bool_decide_unpack _). vm_compute. exact I.
Qed.

(** 2^31 + 1 distinct values, one of them not negative, do not go into a
    fresh set of that capacity. *)
Lemma negative_members_insert_all :
  fresh (create 2147483649) ∧
  NoDup (below_zero (Z.to_nat 2147483648) ++ [0]) ∧
  Z.of_nat (length (below_zero (Z.to_nat 2147483648) ++ [0]))
    ≤ capacity (create 2147483649) ∧
  insert_all (create 2147483649) (below_zero (Z.to_nat 2147483648) ++ [0]) = None.
Proof.
  pose proof (insert_all_beyond_limit _ limit_nat) as (Hnd & Hcap & Hnone).
  replace 2147483649 with (Z.of_nat (Z.to_nat 2147483648 + 1)) by lia.
  split_and!; [left; eexists; reflexivity|assumption..].
Qed.

(** * Further properties of the class *)

(** ** insert and the capacity *)

Lemma at_set_other (e : list Z) (k : nat) (x i : Z) :
  i ≠ Z.of_nat k → vec_get (<[k := x]> e) i = vec_get e i.
Proof.
  intros Hi. unfold vec_get. case_decide; [|done].
  apply list_lookup_insert_ne. lia.
Qed.

Lemma remove_loop_capacity fuel s x : ∀ index s',
  remove_loop fuel s x index = Some s' → capacity s' = capacity s.
Proof.
  induction fuel as [|fuel IH]; intros index s'; [done|].
  rewrite remove_loop_S. case_decide; [|by intros [= <-]].
  destruct (vec_get (elements s) index) as [v|]; [|done]. simpl.
  case_decide; [|apply IH].
  destruct (vec_get (elements s) (last s)) as [moved|]; [|done]. simpl.
  unfold vec_set. case_decide; [|done]. simpl. case_decide; [|done]. simpl.
  intros [= <-]. unfold capacity. simpl. by rewrite !length_insert.
Qed.

(** X1: [insert] never grows the vector.  When every slot is active and
    [x] is not a member, [insert(x)] writes past the end. *)
Theorem insert_full_fails (s : sparse_array_set) (x : Z) :
  last s ≤ INT_MAX → last s + 1 = capacity s →
  contains s x = Some false →
  insert s x = None.
Proof.
  intros Hty Hfull Hc. pose proof Hc as [(H0 & H1 & H2) _]%contains_false.
  unfold insert. rewrite Hc. rewrite vec_set_out; [done|].
  unfold capacity in Hfull.
  destruct (decide (last s = INT_MAX)) as [->|Hne].
  - rewrite wrap_int_overflow. unfold INT_MIN. lia.
  - rewrite wrap_int_id by (unfold INT_MIN; lia). lia.
Qed.

Lemma insert_full_fails_witness : insert (mk_set [5; 7] 0 1) 9 = None.
Proof.
  apply (insert_full_fails (mk_set [5; 7] 0 1) 9).
  - unfold INT_MAX. simpl. lia.
  - reflexivity.
  - reflexivity.
Defined.

(** X2: an [insert(x)] of a new value with a free slot behind the active
    ones puts [x] into that slot and touches no other slot; the size grows
    by one, the capacity stays, and the members are the old ones and [x]. *)
Theorem insert_new_effect (s : sparse_array_set) (x : Z) :
  contains s x = Some false →
  last s + 1 < capacity s → last s < INT_MAX →
  ∃ s', insert s x = Some s' ∧
        size s' = size s + 1 ∧ capacity s' = capacity s ∧
        at_ s' (last s + 1) = Some x ∧
        (∀ i, i ≠ last s + 1 → at_ s' i = at_ s i) ∧
        (∀ y, contains s' y = Some true ↔ y = x ∨ contains s y = Some true).
Proof.
  intros Hc Hroom Hmax. pose proof Hc as [Hr Hnin]%contains_false.
  pose proof Hr as (H0 & H1 & H2).
  destruct (insert_new s x Hc Hroom Hmax) as (s' & Hi & Ha & Hf & Hl & He).
  unfold capacity in *.
  assert (range_ok s') as Hr'.
  { unfold range_ok. rewrite Hf, Hl, He, length_insert. lia. }
  exists s'. split_and!; [done| | | | |].
  - rewrite !size_active by (done || lia). rewrite Ha, length_app. simpl. lia.
  - by rewrite He, length_insert.
  - unfold at_, vec_get. rewrite decide_True by lia. rewrite He.
    apply list_lookup_insert_eq. lia.
  - intros i Hi'. unfold at_. rewrite He. apply at_set_other. lia.
  - intros y. rewrite !contains_member by done.
    rewrite Ha, elem_of_app, list_elem_of_singleton. tauto.
Qed.

Lemma insert_new_effect_witness :
  ∃ s', insert (mk_set [5; 7; 0; 0] 0 1) 9 = Some s' ∧
        size s' = size (mk_set [5; 7; 0; 0] 0 1) + 1 ∧
        capacity s' = capacity (mk_set [5; 7; 0; 0] 0 1) ∧
        at_ s' (1 + 1) = Some 9 ∧
        (∀ i, i ≠ 1 + 1 → at_ s' i = at_ (mk_set [5; 7; 0; 0] 0 1) i) ∧
        (∀ y, contains s' y = Some true
              ↔ y = 9 ∨ contains (mk_set [5; 7; 0; 0] 0 1) y = Some true).
Proof.
  apply (insert_new_effect (mk_set [5; 7; 0; 0] 0 1) 9).
  - reflexivity.
  - vm_compute. reflexivity.
  - vm_compute. reflexivity.
Defined.

(** X3: neither [insert] nor [remove] changes the number of slots of the
    vector, whatever the state of the object. *)
Theorem capacity_kept (s s' : sparse_array_set) (x : Z) :
  (insert s x = Some s' → capacity s' = capacity s) ∧
  (remove s x = Some s' → capacity s' = capacity s).
Proof.
  split.
  - unfold insert. destruct (contains s x) as [[]|]; [by intros [= <-]| |done].
    unfold vec_set. case_decide; [|done]. simpl. intros [= <-].
    unfold capacity. simpl. by rewrite length_insert.
  - apply remove_loop_capacity.
Qed.

Lemma capacity_kept_witness :
  capacity (mk_set [5; 9; -1] 0 1) = capacity (mk_set [5; -1; -1] 0 0) ∧
  capacity (mk_set [9; 7; 5] 0 1) = capacity (mk_set [5; 7; 9] 0 2).
Proof.
  split.
  - apply (proj1 (capacity_kept (mk_set [5; -1; -1] 0 0) (mk_set [5; 9; -1] 0 1) 9)).
    reflexivity.
  - apply (proj2 (capacity_kept (mk_set [5; 7; 9] 0 2) (mk_set [9; 7; 5] 0 1) 5)).
    reflexivity.
Defined.

(** ** remove, and remove together with insert *)

Lemma remove_member_wf s x :
  wf s → x ∈ active s →
  ∃ s', remove s x = Some s' ∧ wf s' ∧
        active s ≡ₚ x :: active s' ∧ (x ∉ active s') ∧
        last s' = last s - 1 ∧ capacity s' = capacity s ∧
        elements s' !! Z.to_nat (last s) = Some x.
Proof.
  intros Hwf Hin. pose proof Hwf as (Hf & Hr & Hty & Hnd).
  destruct (remove_member s x Hr Hty Hin)
    as (k & moved & s' & Hrem & Hk & _ & Hmoved & He & Hf' & Hl & Hperm).
  pose proof Hr as (H0 & H1 & H2).
  pose proof (lookup_lt_Some _ _ _ Hmoved) as Hlt.
  exists s'. split; [done|]. split; [by eapply wf_remove|].
  unfold I2 in Hnd. rewrite Hperm in Hnd. apply NoDup_cons in Hnd as [Hnin _].
  split_and!; try done.
  - unfold capacity. by rewrite He, !length_insert.
  - rewrite He. apply list_lookup_insert_eq. by rewrite length_insert.
Qed.

(** After [remove(x)] of a member, [insert(x)] finds the slot it left. *)
Lemma remove_then_insert s x :
  wf s → x ∈ active s →
  ∃ s1 s2, remove s x = Some s1 ∧ insert s1 x = Some s2 ∧
           contains s1 x = Some false ∧
           wf s2 ∧ elements s2 = elements s1 ∧ last s2 = last s ∧
           active s2 ≡ₚ active s ∧ at_ s2 (last s) = Some x.
Proof.
  intros Hwf Hin. pose proof Hwf as (Hf & Hr & Hty & Hnd).
  pose proof (active_length s Hr) as Hlen.
  assert (0 ≤ last s) as Hlast.
  { destruct (active s); [by apply elem_of_nil in Hin|simpl in Hlen; lia]. }
  destruct (remove_member_wf s x Hwf Hin)
    as (s1 & Hrem & Hwf1 & Hperm & Hnin & Hl1 & Hcap & Hx).
  pose proof Hwf1 as (Hf1 & Hr1 & Hty1 & Hnd1).
  assert (contains s1 x = Some false) as Hc1 by by apply contains_false.
  destruct Hr as (H0 & H1 & H2). unfold capacity in Hcap.
  destruct (insert_new s1 x Hc1) as (s2 & Hi & Ha & Hf2 & Hl2 & He2); [lia..|].
  assert (last s1 + 1 = last s) as Heq by lia.
  rewrite Heq in He2, Hl2.
  rewrite (list_insert_id _ _ _ Hx) in He2.
  exists s1, s2. split_and!; try done.
  - by eapply wf_insert.
  - rewrite Ha, Hperm. symmetry. apply Permutation_cons_append.
  - unfold at_, vec_get. rewrite decide_True by done. by rewrite He2.
Qed.

(** X4: [remove(x)] of a member of a set returns; afterwards [x] is not a
    member, every other member still is, the size is one less and the
    result is again a set. *)
Theorem remove_member_effect (s : sparse_array_set) (x : Z) :
  wf s → contains s x = Some true →
  ∃ s', remove s x = Some s' ∧ wf s' ∧
        size s' = size s - 1 ∧ capacity s' = capacity s ∧
        (∀ y, contains s' y = Some true ↔ y ≠ x ∧ contains s y = Some true).
Proof.
  intros Hwf [_ Hin]%contains_true.
  destruct (remove_member_wf s x Hwf Hin)
    as (s' & Hrem & Hwf' & Hperm & Hnin & Hl & Hcap & _).
  exists s'. split_and!; try done.
  - rewrite !wf_size by done. lia.
  - intros y. pose proof Hwf as (_ & Hr & _). pose proof Hwf' as (_ & Hr' & _).
    rewrite !contains_member by done. rewrite Hperm, elem_of_cons. split.
    + intros Hy. split; [|by right].
      intros ->. done.
    + intros (Hne & [->|Hy]); done.
Qed.

Lemma remove_member_effect_witness :
  ∃ s', remove (mk_set [5; 7; 9; -1] 0 2) 5 = Some s' ∧ wf s' ∧
        size s' = size (mk_set [5; 7; 9; -1] 0 2) - 1 ∧
        capacity s' = capacity (mk_set [5; 7; 9; -1] 0 2) ∧
        (∀ y, contains s' y = Some true
              ↔ y ≠ 5 ∧ contains (mk_set [5; 7; 9; -1] 0 2) y = Some true).
Proof.
  apply (remove_member_effect (mk_set [5; 7; 9; -1] 0 2) 5).
  - apply (bool_decide_unpack _). vm_compute. exact I.
  - reflexivity.
Defined.

(** X5: [insert(x)] of a new value followed by [remove(x)] gives back the
    cursors and the active slots as they were; the only trace is [x] in
    the slot behind them. *)
Theorem insert_then_remove (s : sparse_array_set) (x : Z) :
  contains s x = Some false →
  last s + 1 < capacity s → last s < INT_MAX →
  ∃ s1 s2, insert s x = Some s1 ∧ remove s1 x = Some s2 ∧
           first s2 = first s ∧ last s2 = last s ∧ active s2 = active s ∧
           elements s2 = <[Z.to_nat (last s + 1) := x]> (elements s).
Proof.
  intros Hc Hroom Hmax. pose proof Hc as [Hr Hnin]%contains_false.
  pose proof Hr as (H0 & H1 & H2). unfold capacity in Hroom.
  pose proof (active_length s Hr) as Hlen.
  destruct (insert_new s x Hc Hroom Hmax) as (s1 & Hi & Ha & Hf & Hl & He).
  assert (range_ok s1) as Hr1.
  { unfold range_ok. rewrite Hf, Hl, He, length_insert. lia. }
  assert (elements s1 !! Z.to_nat (last s1) = Some x) as Hx.
  { rewrite Hl, He. apply list_lookup_insert_eq. lia. }
  exists s1. eexists. split; [done|]. split.
  { apply (remove_found s1 x (length (active s)) x); try done.
    - lia.
    - rewrite Ha. by apply list_lookup_middle.
    - by rewrite Ha, take_app_length. }
  simpl. rewrite Hf, Hl.
  replace (Z.to_nat (first s) + length (active s))%nat
    with (Z.to_nat (last s + 1)) by lia.
  rewrite He, !list_insert_insert_eq.
  split_and!; [done|lia| |done].
  unfold active; simpl.
  replace (Z.to_nat (last s + 1 - 1 + 1 - first s))
    with (Z.to_nat (last s + 1 - first s)) by lia.
  rewrite drop_insert_ge by lia. by rewrite take_insert_ge by lia.
Qed.

Lemma insert_then_remove_witness :
  ∃ s1 s2, insert (mk_set [5; 7; 0; 0] 0 1) 9 = Some s1 ∧ remove s1 9 = Some s2 ∧
           first s2 = 0 ∧ last s2 = 1 ∧ active s2 = active (mk_set [5; 7; 0; 0] 0 1) ∧
           elements s2 = <[Z.to_nat (1 + 1) := 9]> [5; 7; 0; 0].
Proof.
  apply (insert_then_remove (mk_set [5; 7; 0; 0] 0 1) 9).
  - reflexivity.
  - vm_compute. reflexivity.
  - vm_compute. reflexivity.
Defined.

(** X6: [remove(x)] of a member followed by [insert(x)] returns a set with
    the members and the size it had, with [x] now in the last active slot;
    the [insert] writes no slot that [remove] has not written. *)
Theorem remove_then_reinsert (s : sparse_array_set) (x : Z) :
  wf s → contains s x = Some true →
  ∃ s1 s2, remove s x = Some s1 ∧ insert s1 x = Some s2 ∧
           contains s1 x = Some false ∧
           wf s2 ∧ size s2 = size s ∧ active s2 ≡ₚ active s ∧
           elements s2 = elements s1 ∧ at_ s2 (last s) = Some x.
Proof.
  intros Hwf [_ Hin]%contains_true.
  destruct (remove_then_insert s x Hwf Hin)
    as (s1 & s2 & Hrem & Hi & Hc1 & Hwf2 & He & Hl & Hperm & Hat).
  exists s1, s2. split_and!; try done.
  rewrite !wf_size by done. lia.
Qed.

Lemma remove_then_reinsert_witness :
  ∃ s1 s2, remove (mk_set [5; 7; 9; -1] 0 2) 5 = Some s1 ∧ insert s1 5 = Some s2 ∧
           contains s1 5 = Some false ∧
           wf s2 ∧ size s2 = size (mk_set [5; 7; 9; -1] 0 2) ∧
           active s2 ≡ₚ active (mk_set [5; 7; 9; -1] 0 2) ∧
           elements s2 = elements s1 ∧ at_ s2 2 = Some 5.
Proof.
  apply (remove_then_reinsert (mk_set [5; 7; 9; -1] 0 2) 5).
  - apply (bool_decide_unpack _). vm_compute. exact I.
  - reflexivity.
Defined.

(** ** move_to *)

(** X7: [a.move_to(x, a)] on a set that contains [x] returns; the object
    is again a set with the same members and size, and [x] has moved to
    the last active slot. *)
Theorem move_to_self (st : list sparse_array_set) (a : nat) (x : Z) (A : sparse_array_set) :
  st !! a = Some A → wf A → contains A x = Some true →
  ∃ A', exec_op st (OpMoveTo a x a) = Some (<[a := A']> st) ∧
        wf A' ∧ size A' = size A ∧ active A' ≡ₚ active A ∧
        at_ A' (last A) = Some x.
Proof.
  intros Ha Hwf [_ Hin]%contains_true.
  destruct (remove_then_insert A x Hwf Hin)
    as (A1 & A2 & Hrem & Hi & _ & Hwf2 & _ & Hl & Hperm & Hat).
  exists A2. rewrite (exec_move_to_self st a x A Ha), Hrem. simpl. rewrite Hi. simpl.
  split_and!; try done.
  rewrite !wf_size by done. lia.
Qed.

Lemma move_to_self_witness :
  ∃ A', exec_op [mk_set [5; 7; 9; -1] 0 2] (OpMoveTo 0 5 0)
        = Some (<[0%nat := A']> [mk_set [5; 7; 9; -1] 0 2]) ∧
        wf A' ∧ size A' = size (mk_set [5; 7; 9; -1] 0 2) ∧
        active A' ≡ₚ active (mk_set [5; 7; 9; -1] 0 2) ∧
        at_ A' 2 = Some 5.
Proof.
  apply (move_to_self [mk_set [5; 7; 9; -1] 0 2] 0 5 (mk_set [5; 7; 9; -1] 0 2)).
  - reflexivity.
  - apply (bool_decide_unpack _). vm_compute. exact I.
  - reflexivity.
Defined.

(** X8: [move_to] does not ask whether the source holds [x].  When it does
    not, the source is left as it was and [x] is inserted into the target
    all the same. *)
Theorem move_to_absent (A B : sparse_array_set) (x : Z) :
  contains A x = Some false → last A < INT_MAX →
  move_to A x B = (B' ← insert B x; Some (A, B')).
Proof.
  intros Hc Hmax. unfold move_to. by rewrite (remove_absent A x Hc Hmax).
Qed.

Lemma move_to_absent_witness :
  move_to (mk_set [5; 7; -1] 0 1) 4 (mk_set [1; -1] 0 0)
  = Some (mk_set [5; 7; -1] 0 1, mk_set [1; 4] 0 1).
Proof.
  rewrite (move_to_absent (mk_set [5; 7; -1] 0 1) (mk_set [1; -1] 0 0) 4).
  - reflexivity.
  - reflexivity.
  - vm_compute. reflexivity.
Defined.

(** X9: when the target already contains [x], [move_to] removes [x] from
    the source and leaves the target as it was: one copy of [x] is gone. *)
Theorem move_to_present_target (A B : sparse_array_set) (x : Z) :
  wf A → contains A x = Some true → contains B x = Some true →
  ∃ A', move_to A x B = Some (A', B) ∧
        contains A' x = Some false ∧ size A' = size A - 1.
Proof.
  intros Hwf [_ Hin]%contains_true HB.
  destruct (remove_member_wf A x Hwf Hin)
    as (A' & Hrem & Hwf' & _ & Hnin & Hl & _ & _).
  exists A'. unfold move_to. rewrite Hrem, (insert_member B x HB). simpl.
  split_and!; [done| |].
  - apply contains_false. by destruct Hwf' as (_ & ? & _).
  - rewrite !wf_size by done. lia.
Qed.

Lemma move_to_present_target_witness :
  ∃ A', move_to (mk_set [5; 7; -1] 0 1) 5 (mk_set [1; 5] 0 1)
        = Some (A', mk_set [1; 5] 0 1) ∧
        contains A' 5 = Some false ∧ size A' = size (mk_set [5; 7; -1] 0 1) - 1.
Proof.
  apply (move_to_present_target (mk_set [5; 7; -1] 0 1) (mk_set [1; 5] 0 1) 5).
  - apply (bool_decide_unpack _). vm_compute. exact I.
  - reflexivity.
  - reflexivity.
Defined.

(** X10: a [move_to] between two sets, from one that contains [x] to one
    that does not and has a free slot, leaves two sets whose members
    together are the members the two had together. *)
Theorem move_to_conserves (A B : sparse_array_set) (x : Z) :
  wf A → wf B →
  contains A x = Some true → contains B x = Some false →
  last B + 1 < capacity B → last B < INT_MAX →
  ∃ A' B', move_to A x B = Some (A', B') ∧ wf A' ∧ wf B' ∧
           active A' ++ active B' ≡ₚ active A ++ active B.
Proof.
  intros HwfA HwfB [_ Hin]%contains_true HB Hroom Hmax.
  destruct (remove_member_wf A x HwfA Hin)
    as (A' & Hrem & HwfA' & Hperm & _).
  destruct (insert_new B x HB Hroom Hmax) as (B' & Hi & Ha & _).
  exists A', B'. unfold move_to. rewrite Hrem, Hi. simpl.
  split_and!; [done|done|exact (wf_insert B x B' HwfB Hi)|].
  rewrite Ha, Hperm. rewrite app_assoc. rewrite <- Permutation_cons_append.
  done.
Qed.

Lemma move_to_conserves_witness :
  ∃ A' B', move_to (mk_set [5; 7; 9] 0 2) 5 (mk_set [4; -1; -1] 0 0) = Some (A', B') ∧
           wf A' ∧ wf B' ∧
           active A' ++ active B'
           ≡ₚ active (mk_set [5; 7; 9] 0 2) ++ active (mk_set [4; -1; -1] 0 0).
Proof.
  apply (move_to_conserves (mk_set [5; 7; 9] 0 2) (mk_set [4; -1; -1] 0 0) 5).
  - apply (bool_decide_unpack _). vm_compute. exact I.
  - apply (bool_decide_unpack _). vm_compute. exact I.
  - reflexivity.
  - reflexivity.
  - vm_compute. reflexivity.
  - vm_compute. reflexivity.
Defined.

(** ** resize and init *)

Lemma vec_resize_get_old (e : list Z) (n i fill : Z) :
  0 ≤ i < Z.of_nat (length e) → i < n →
  vec_get (vec_resize e n fill) i = vec_get e i.
Proof.
  intros Hi Hn. unfold vec_get, vec_resize. rewrite !decide_True by lia.
  rewrite lookup_app_l by (rewrite length_take; lia).
  apply lookup_take_lt. lia.
Qed.

Lemma vec_resize_get_new (e : list Z) (n i fill : Z) :
  Z.of_nat (length e) ≤ i < n →
  vec_get (vec_resize e n fill) i = Some fill.
Proof.
  intros Hi. unfold vec_get, vec_resize. rewrite decide_True by lia.
  rewrite take_ge by lia. rewrite lookup_app_r by lia.
  apply lookup_replicate_2. lia.
Qed.

(** X11: a [resize] to at least [last + 1] slots keeps the set: same
    active slots, same answers of [contains]; the slots that stay keep
    their values and the new ones hold -1. *)
Theorem resize_keeps_members (s : sparse_array_set) (n : Z) :
  range_ok s → last s + 1 ≤ n →
  capacity (resize s n) = n ∧
  active (resize s n) = active s ∧
  (∀ x, contains (resize s n) x = contains s x) ∧
  (∀ i, 0 ≤ i < capacity s → i < n → at_ (resize s n) i = at_ s i) ∧
  (∀ i, capacity s ≤ i < n → at_ (resize s n) i = Some (-1)).
Proof.
  intros Hr Hn. pose proof Hr as (H0 & H1 & H2).
  pose proof (active_length s Hr) as Hlen.
  pose proof (layout_intro s Hr) as Hs.
  set (pre := take (Z.to_nat (first s)) (elements s)) in *.
  set (post := drop (Z.to_nat (last s + 1)) (elements s)) in *.
  assert (Z.of_nat (length pre) = first s) as Hpre.
  { unfold pre. rewrite length_take. lia. }
  assert (resize s n = layout pre (active s) (vec_resize post
            (n - Z.of_nat (length pre + length (active s))) (-1))) as Hres.
  { rewrite Hs at 1. apply resize_layout. lia. }
  split_and!.
  - unfold capacity, resize; simpl. apply vec_resize_length. lia.
  - by rewrite Hres, layout_active.
  - intros x. rewrite Hres, layout_contains.
    symmetry. by apply contains_range_ok.
  - intros i Hi Hin. apply vec_resize_get_old; [done|lia].
  - intros i Hi. by apply vec_resize_get_new.
Qed.

Lemma resize_keeps_members_witness :
  capacity (resize (mk_set [5; 7; 9; 3] 0 1) 6) = 6 ∧
  active (resize (mk_set [5; 7; 9; 3] 0 1) 6) = active (mk_set [5; 7; 9; 3] 0 1) ∧
  (∀ x, contains (resize (mk_set [5; 7; 9; 3] 0 1) 6) x
        = contains (mk_set [5; 7; 9; 3] 0 1) x) ∧
  (∀ i, 0 ≤ i < capacity (mk_set [5; 7; 9; 3] 0 1) → i < 6 →
        at_ (resize (mk_set [5; 7; 9; 3] 0 1) 6) i = at_ (mk_set [5; 7; 9; 3] 0 1) i) ∧
  (∀ i, capacity (mk_set [5; 7; 9; 3] 0 1) ≤ i < 6 →
        at_ (resize (mk_set [5; 7; 9; 3] 0 1) 6) i = Some (-1)).
Proof.
  apply (resize_keeps_members (mk_set [5; 7; 9; 3] 0 1) 6).
  - unfold range_ok. simpl. lia.
  - simpl. lia.
Defined.

(** [contains] after a [resize] that cuts the vector below [last]. *)
Lemma contains_resize_cut (s : sparse_array_set) (n x : Z) :
  0 ≤ first s ≤ n → n < last s + 1 →
  contains (resize s n) x
  = if scan x (drop (Z.to_nat (first s)) (elements (resize s n)))
    then Some true else None.
Proof.
  intros Hf Hn.
  pose proof (vec_resize_length (elements s) n (-1)) as Hlen.
  rewrite contains_cut.
  - unfold active, resize; simpl. rewrite take_ge; [done|].
    rewrite length_drop. lia.
  - unfold begin_ok, resize; simpl. lia.
  - unfold resize; simpl. lia.
Qed.

(** X12: [resize] does not move the cursors.  After a [resize] to fewer
    than [last + 1] slots [end()] lies behind the vector and a walk over
    the whole set is not defined.  The loop of [contains] still stops at
    the first slot that holds [x]: for a value in one of the slots left
    from [first] on, [contains] returns [true] and [insert] returns
    without a write; for every other value the loop leaves the vector, in
    [contains] and in [insert]. *)
Theorem resize_cuts_members (s : sparse_array_set) (n x : Z) :
  0 ≤ first s ≤ n → n < last s + 1 →
  first (resize s n) = first s ∧ last (resize s n) = last s ∧
  iterate (resize s n) = None ∧
  (x ∈ drop (Z.to_nat (first s)) (elements (resize s n)) →
   contains (resize s n) x = Some true ∧ insert (resize s n) x = Some (resize s n)) ∧
  (x ∉ drop (Z.to_nat (first s)) (elements (resize s n)) →
   contains (resize s n) x = None ∧ insert (resize s n) x = None).
Proof.
  intros Hf Hn.
  pose proof (contains_resize_cut s n x Hf Hn) as Hc.
  split_and!; [done|done| | |].
  - unfold iterate. rewrite decide_False; [done|].
    unfold range_ok, resize; simpl. rewrite vec_resize_length by lia. lia.
  - intros Hx%scan_true. rewrite Hx in Hc. split; [done|by apply insert_member].
  - intros Hx%scan_false. rewrite Hx in Hc. split; [done|].
    unfold insert. by rewrite Hc.
Qed.

Lemma resize_cuts_members_witness :
  (contains (resize (mk_set [5; 7; 9; 3] 0 2) 2) 7 = Some true ∧
   insert (resize (mk_set [5; 7; 9; 3] 0 2) 2) 7 = Some (mk_set [5; 7] 0 2)) ∧
  (contains (resize (mk_set [5; 7; 9; 3] 0 2) 2) 9 = None ∧
   insert (resize (mk_set [5; 7; 9; 3] 0 2) 2) 9 = None).
Proof.
  split.
  - apply (resize_cuts_members (mk_set [5; 7; 9; 3] 0 2) 2 7).
    + simpl. lia.
    + simpl. lia.
    + apply (bool_decide_unpack _). vm_compute. exact I.
  - apply (resize_cuts_members (mk_set [5; 7; 9; 3] 0 2) 2 9).
    + simpl. lia.
    + simpl. lia.
    + apply (bool_decide_unpack _). vm_compute. exact I.
Defined.

(** X13: [resize] does not keep invariant I2.  Shrinking a set of two or
    more members to no slot and growing it again leaves the cursors where
    they were: the set reports its old size, but its active slots all
    hold the fill value -1. *)
Theorem resize_regrow_breaks_I2 (s : sparse_array_set) (n : Z) :
  first s = 0 → 1 ≤ last s → last s + 1 ≤ n →
  active (resize (resize s 0) n) = replicate (Z.to_nat (last s + 1)) (-1) ∧
  ¬ I2 (resize (resize s 0) n) ∧
  size (resize (resize s 0) n) = size s ∧
  (∀ x, contains (resize (resize s 0) n) x = Some (bool_decide (x = -1))).
Proof.
  intros Hf Hl Hn.
  assert (elements (resize (resize s 0) n) = replicate (Z.to_nat n) (-1)) as He.
  { unfold resize, vec_resize; simpl. rewrite take_nil. simpl.
    by rewrite Nat.sub_0_r. }
  assert (active (resize (resize s 0) n) = replicate (Z.to_nat (last s + 1)) (-1)) as Ha.
  { unfold active. rewrite He. simpl. rewrite Hf.
    change (Z.to_nat 0) with 0%nat. rewrite drop_0, take_replicate.
    f_equal. lia. }
  split_and!; [done| |done|].
  - unfold I2. rewrite Ha.
    replace (Z.to_nat (last s + 1)) with (S (S (Z.to_nat (last s - 1)))) by lia.
    simpl. intros [Hnin _]%NoDup_cons. apply Hnin. left.
  - intros x. rewrite contains_range_ok.
    2:{ unfold range_ok. rewrite He, length_replicate. simpl. lia. }
    f_equal. rewrite Ha.
    replace (Z.to_nat (last s + 1)) with (S (Z.to_nat (last s))) by lia.
    simpl. case_decide as Hx.
    + by rewrite bool_decide_eq_true_2.
    + rewrite bool_decide_eq_false_2 by done.
      apply scan_false. intros [? _]%elem_of_replicate. done.
Qed.

Lemma resize_regrow_breaks_I2_witness :
  active (resize (resize (mk_set [5; 7; 9] 0 2) 0) 3) = replicate (Z.to_nat (2 + 1)) (-1) ∧
  ¬ I2 (resize (resize (mk_set [5; 7; 9] 0 2) 0) 3) ∧
  size (resize (resize (mk_set [5; 7; 9] 0 2) 0) 3) = size (mk_set [5; 7; 9] 0 2) ∧
  (∀ x, contains (resize (resize (mk_set [5; 7; 9] 0 2) 0) 3) x
        = Some (bool_decide (x = -1))).
Proof.
  apply (resize_regrow_breaks_I2 (mk_set [5; 7; 9] 0 2) 3).
  - reflexivity.
  - simpl. lia.
  - simpl. lia.
Defined.

(** X14: [init(c)] empties the set for every state of the object, valid
    or not, and gives it [c] slots; it does not refill the slots that
    stay, only the new ones hold -1. *)
Theorem init_forgets (s : sparse_array_set) (c : Z) :
  0 ≤ c →
  wf (init s c) ∧ capacity (init s c) = c ∧
  (∀ x, contains (init s c) x = Some false) ∧
  (∀ i, 0 ≤ i < capacity s → i < c → at_ (init s c) i = at_ s i) ∧
  (∀ i, capacity s ≤ i < c → at_ (init s c) i = Some (-1)).
Proof.
  intros Hc. split_and!.
  - apply wf_init.
  - unfold capacity, init; simpl. by apply vec_resize_length.
  - intros x. apply contains_false. split.
    + by destruct (wf_init s c) as (_ & ? & _).
    + unfold active; simpl. apply not_elem_of_nil.
  - intros i Hi Hic. apply vec_resize_get_old; [done|lia].
  - intros i Hi. by apply vec_resize_get_new.
Qed.

Lemma init_forgets_witness :
  wf (init (mk_set [5; 7; 9] 0 2) 4) ∧ capacity (init (mk_set [5; 7; 9] 0 2) 4) = 4 ∧
  (∀ x, contains (init (mk_set [5; 7; 9] 0 2) 4) x = Some false) ∧
  (∀ i, 0 ≤ i < capacity (mk_set [5; 7; 9] 0 2) → i < 4 →
        at_ (init (mk_set [5; 7; 9] 0 2) 4) i = at_ (mk_set [5; 7; 9] 0 2) i) ∧
  (∀ i, capacity (mk_set [5; 7; 9] 0 2) ≤ i < 4 →
        at_ (init (mk_set [5; 7; 9] 0 2) 4) i = Some (-1)).
Proof.
  apply (init_forgets (mk_set [5; 7; 9] 0 2) 4). lia.
Defined.

(** ** init_from_adj at its edges *)

(** X15: [init_from_adj] reads [adj[node]] unchecked: a [node] that is
    negative or not below [adj.size()] is an access out of the adjacency,
    whatever the set. *)
Theorem init_from_adj_bad_node (s : sparse_array_set) (adj : list (list Z)) (node : Z) :
  node < 0 ∨ Z.of_nat (length adj) ≤ node →
  init_from_adj s adj node = None.
Proof.
  intros Hnode. unfold init_from_adj. case_decide as H0; [|done].
  rewrite (proj2 (lookup_ge_None adj (Z.to_nat node))); [done|lia].
Qed.

Lemma init_from_adj_bad_node_witness :
  init_from_adj (create 3) [[1; 2]; [0]; [0]] 3 = None.
Proof.
  apply (init_from_adj_bad_node (create 3) [[1; 2]; [0]; [0]] 3).
  right. simpl. lia.
Defined.

(** [insert] of values the loop of [contains] finds writes nothing. *)
Lemma insert_all_members s l :
  Forall (λ w, contains s w = Some true) l → insert_all s l = Some s.
Proof.
  induction 1 as [|w l Hw _ IH]; simpl; [done|].
  by rewrite (insert_member s w Hw).
Qed.

(** X16: [init_from_adj] resizes before it inserts and does not reset the
    cursors.  On a set with more active slots than the adjacency has
    entries the vector is cut below [last].  A first neighbor that none
    of the slots left holds makes the loop of [contains] leave the
    vector.  When the slots left hold all the neighbors, the call returns
    and has written nothing: [last] still points behind the vector. *)
Theorem init_from_adj_cuts_members
    (s : sparse_array_set) (adj : list (list Z)) (node v : Z) (rest : list Z) :
  0 ≤ node → adj !! Z.to_nat node = Some (v :: rest) →
  first s = 0 → last s ≤ INT_MAX →
  Z.of_nat (length adj) < last s + 1 →
  ((v ∉ elements (resize s (Z.of_nat (length adj)))) →
   init_from_adj s adj node = None) ∧
  (Forall (λ w, w ∈ elements (resize s (Z.of_nat (length adj)))) (v :: rest) →
   init_from_adj s adj node = Some (resize s (Z.of_nat (length adj))) ∧
   capacity (resize s (Z.of_nat (length adj))) < size (resize s (Z.of_nat (length adj)))).
Proof.
  intros Hnode Hadj Hf Hty Hcut.
  pose proof (Nat2Z.is_nonneg (length adj)) as Hn0.
  set (n := Z.of_nat (length adj)) in *.
  assert (init_from_adj s adj node = insert_all (resize s n) (v :: rest)) as ->.
  { unfold init_from_adj. fold n. rewrite to_unsigned_id by (unfold INT_MAX in Hty; lia).
    rewrite decide_True by done. by rewrite Hadj. }
  assert (∀ w, contains (resize s n) w
               = if scan w (elements (resize s n)) then Some true else None) as Hc.
  { intros w. rewrite contains_resize_cut by lia.
    rewrite Hf. change (Z.to_nat 0) with 0%nat. by rewrite drop_0. }
  split.
  - intros Hv%scan_false. cbn [insert_all]. unfold insert.
    rewrite Hc, Hv. done.
  - intros Hall. split.
    + apply insert_all_members.
      eapply Forall_impl; [exact Hall|]. intros w Hw%scan_true.
      cbv beta in Hw. by rewrite Hc, Hw.
    + unfold capacity, size. cbn [resize elements first last].
      rewrite vec_resize_length by lia. rewrite Hf, Z.sub_0_r.
      rewrite (wrap_int_id (last s)) by (unfold INT_MIN, INT_MAX in *; lia).
      destruct (decide (last s = INT_MAX)) as [Heq|Hne].
      * rewrite Heq, wrap_int_overflow. rewrite Heq in Hcut.
        change (to_unsigned INT_MIN) with 2147483648.
        unfold INT_MAX in Hcut. lia.
      * rewrite wrap_int_id by (unfold INT_MIN, INT_MAX in *; lia).
        rewrite to_unsigned_id by (unfold INT_MAX in *; lia). lia.
Qed.

Lemma init_from_adj_cuts_members_witness :
  init_from_adj (mk_set [5; 7; 9] 0 2) [[1]; [0]] 0 = None ∧
  (init_from_adj (mk_set [5; 7; 9] 0 2) [[5]; [0]] 0 = Some (mk_set [5; 7] 0 2) ∧
   capacity (mk_set [5; 7] 0 2) < size (mk_set [5; 7] 0 2)).
Proof.
  split.
  - apply (proj1 (init_from_adj_cuts_members (mk_set [5; 7; 9] 0 2) [[1]; [0]] 0 1 []
                    ltac:(lia) eq_refl eq_refl ltac:(vm_compute; discriminate)
                    ltac:(simpl; lia))).
    apply (bool_decide_unpack _). vm_compute. exact I.
  - apply (proj2 (init_from_adj_cuts_members (mk_set [5; 7; 9] 0 2) [[5]; [0]] 0 5 []
                    ltac:(lia) eq_refl eq_refl ltac:(vm_compute; discriminate)
                    ltac:(simpl; lia))).
    apply (bool_decide_unpack _). vm_compute. exact I.
Defined.

(** ** size, empty, iteration and at *)

(** X17: on a set [empty()] is true exactly when [size()] is 0, and
    exactly when [contains] is false of every value. *)
Theorem empty_iff (s : sparse_array_set) :
  wf s →
  (empty s = true ↔ size s = 0) ∧
  (empty s = true ↔ ∀ x, contains s x = Some false).
Proof.
  intros Hwf. pose proof Hwf as (Hf & Hr & Hty & _).
  pose proof (active_length s Hr) as Hlen.
  pose proof Hr as (H0 & H1 & H2).
  rewrite (wf_size s Hwf). unfold empty. rewrite bool_decide_eq_true.
  split; [lia|]. split.
  - intros Hlt x. apply contains_false. split; [done|].
    destruct (active s); [apply not_elem_of_nil|simpl in Hlen; lia].
  - intros Hall. destruct (active s) as [|v l] eqn:Ha; [simpl in Hlen; lia|].
    specialize (Hall v). apply contains_false in Hall as [_ Hnin].
    exfalso. apply Hnin. rewrite Ha. left.
Qed.

Lemma empty_iff_witness :
  (empty (mk_set [5; 7] 0 (-1)) = true ↔ size (mk_set [5; 7] 0 (-1)) = 0) ∧
  (empty (mk_set [5; 7] 0 (-1)) = true
   ↔ ∀ x, contains (mk_set [5; 7] 0 (-1)) x = Some false).
Proof.
  apply (empty_iff (mk_set [5; 7] 0 (-1))).
  apply (bool_decide_unpack _). vm_compute. exact I.
Defined.

(** X18: a range-based [for] over a set visits every member once, [size()]
    values in all, and the value it visits at position [k] is [at(k)]. *)
Theorem iterate_members (s : sparse_array_set) :
  wf s →
  ∃ l, iterate s = Some l ∧ NoDup l ∧ Z.of_nat (length l) = size s ∧
       (∀ x, x ∈ l ↔ contains s x = Some true) ∧
       (∀ k : nat, Z.of_nat k ≤ last s → l !! k = at_ s (Z.of_nat k)).
Proof.
  intros Hwf. pose proof Hwf as (Hf & Hr & Hty & Hnd).
  exists (active s). unfold iterate. rewrite decide_True by done.
  split_and!; [done|done| | |].
  - by rewrite size_active.
  - intros x. by rewrite contains_member.
  - intros k Hk. rewrite active_lookup by lia.
    unfold at_. rewrite vec_get_nat. f_equal. lia.
Qed.

Lemma iterate_members_witness :
  ∃ l, iterate (mk_set [5; 7; 9; -1] 0 2) = Some l ∧ NoDup l ∧
       Z.of_nat (length l) = size (mk_set [5; 7; 9; -1] 0 2) ∧
       (∀ x, x ∈ l ↔ contains (mk_set [5; 7; 9; -1] 0 2) x = Some true) ∧
       (∀ k : nat, Z.of_nat k ≤ 2 → l !! k = at_ (mk_set [5; 7; 9; -1] 0 2) (Z.of_nat k)).
Proof.
  apply (iterate_members (mk_set [5; 7; 9; -1] 0 2)).
  apply (bool_decide_unpack _). vm_compute. exact I.
Defined.

(** X19: after distinct values were inserted into a set that is fresh or
    was cleared, a range-based [for] visits them in the order of their
    insertion. *)
Theorem iterate_insertion_order (s : sparse_array_set) (l : list Z) :
  fresh s ∨ (∃ s0, s = clear s0) →
  NoDup l → Z.of_nat (length l) ≤ capacity s →
  Z.of_nat (length l) ≤ INT_MAX + 1 →
  ∃ s', insert_all s l = Some s' ∧ iterate s' = Some l.
Proof.
  intros Hs Hnd Hcap Hmax. unfold capacity in Hcap.
  assert (s = layout [] [] (elements s)) as ->.
  { destruct Hs as [Hs|[s0 ->]]; [by apply fresh_layout|done]. }
  assert (merge_new [] l = l) as Hm by by apply (merge_new_fresh []).
  rewrite insert_all_layout by (rewrite Hm; simpl in *; lia).
  rewrite Hm. eexists. split; [done|].
  unfold iterate. rewrite decide_True by apply layout_range_ok.
  by rewrite layout_active.
Qed.

Lemma iterate_insertion_order_witness :
  ∃ s', insert_all (clear (mk_set [1; 2; 3; 4] 0 3)) [9; 5; 7] = Some s' ∧
        iterate s' = Some [9; 5; 7].
Proof.
  apply (iterate_insertion_order (clear (mk_set [1; 2; 3; 4] 0 3)) [9; 5; 7]).
  - right. by eexists.
  - apply (bool_decide_unpack _). vm_compute. exact I.
  - vm_compute. discriminate.
  - vm_compute. discriminate.
Defined.

(** X20: on a set [at] (and [operator[]]) on the indices from 0 to
    [last] gives the members, each at one index only. *)
Theorem at_enumerates_members (s : sparse_array_set) :
  wf s →
  (∀ v, contains s v = Some true ↔ ∃ i, 0 ≤ i ≤ last s ∧ at_ s i = Some v) ∧
  (∀ i j v, 0 ≤ i ≤ last s → 0 ≤ j ≤ last s →
            at_ s i = Some v → at_ s j = Some v → i = j).
Proof.
  intros (Hf & Hr & Hty & Hnd).
  pose proof (active_length s Hr) as Hlen.
  assert (∀ i, 0 ≤ i ≤ last s → at_ s i = active s !! Z.to_nat i) as Hat.
  { intros i Hi. rewrite active_lookup by lia.
    unfold at_, vec_get. rewrite decide_True by lia. f_equal. lia. }
  split.
  - intros v. rewrite contains_member by done. rewrite list_elem_of_lookup. split.
    + intros [k Hk]. pose proof (lookup_lt_Some _ _ _ Hk) as Hlt.
      exists (Z.of_nat k). split; [lia|].
      rewrite Hat by lia. by rewrite Nat2Z.id.
    + intros (i & Hi & Hv).
      exists (Z.to_nat i). by rewrite <- Hat.
  - intros i j v Hi Hj Hvi Hvj. rewrite Hat in Hvi, Hvj by done.
    pose proof (NoDup_lookup _ _ _ _ Hnd Hvi Hvj). lia.
Qed.

Lemma at_enumerates_members_witness :
  (∀ v, contains (mk_set [5; 7; 9; -1] 0 2) v = Some true
        ↔ ∃ i, 0 ≤ i ≤ 2 ∧ at_ (mk_set [5; 7; 9; -1] 0 2) i = Some v) ∧
  (∀ i j v, 0 ≤ i ≤ 2 → 0 ≤ j ≤ 2 →
            at_ (mk_set [5; 7; 9; -1] 0 2) i = Some v →
            at_ (mk_set [5; 7; 9; -1] 0 2) j = Some v → i = j).
Proof.
  apply (at_enumerates_members (mk_set [5; 7; 9; -1] 0 2)).
  apply (bool_decide_unpack _). vm_compute. exact I.
Defined.

(** ** Invariants of reachable states and sequences of inserts *)

Lemma merge_new_remove_dups (l : list Z) : merge_new [] l ≡ₚ remove_dups l.
Proof.
  apply NoDup_Permutation.
  - apply merge_new_NoDup, NoDup_nil_2.
  - apply NoDup_remove_dups.
  - intros v. rewrite merge_new_elem, elem_of_remove_dups, elem_of_nil. tauto.
Qed.

(** X21: in every state that constructor, [init], [insert], [remove],
    [move_to] and [clear] calls reach, [first] is 0 and [size()] is
    [last + 1], between 0 and the number of slots. *)
Theorem reachable_bounds (st : list sparse_array_set) :
  reachable st →
  Forall (λ s, first s = 0 ∧ size s = last s + 1 ∧ 0 ≤ size s ≤ capacity s) st.
Proof.
  intros Hst. eapply Forall_impl; [by apply reachable_wf|].
  intros s Hwf. pose proof Hwf as (Hf & (H0 & H1 & H2) & _).
  rewrite (wf_size s Hwf). unfold capacity. split_and!; [done|done|lia|lia].
Qed.

Lemma reachable_bounds_witness :
  Forall (λ s, first s = 0 ∧ size s = last s + 1 ∧ 0 ≤ size s ≤ capacity s)
         [mk_set [7; 5] 0 0; mk_set [5; -1; -1] 0 0].
Proof.
  apply reachable_bounds.
  exists [OpCreate 2; OpInsert 0 5; OpInsert 0 7; OpCreate 3; OpMoveTo 0 5 1].
  vm_compute. reflexivity.
Defined.

(** X22: inserting a sequence with repetitions into a fresh set with
    enough slots returns a set whose size is the number of distinct values
    of the sequence and whose members are its values. *)
Theorem insert_all_repetitions (s : sparse_array_set) (l : list Z) :
  fresh s →
  Z.of_nat (length (remove_dups l)) ≤ capacity s →
  Z.of_nat (length (remove_dups l)) ≤ INT_MAX + 1 →
  ∃ s', insert_all s l = Some s' ∧ wf s' ∧
        size s' = Z.of_nat (length (remove_dups l)) ∧
        (∀ v, contains s' v = Some true ↔ v ∈ l).
Proof.
  intros Hs Hcap Hmax. unfold capacity in Hcap.
  pose proof (Permutation_length (merge_new_remove_dups l)) as Hlen.
  rewrite (fresh_layout s Hs).
  rewrite insert_all_layout by (simpl; lia).
  eexists. split; [done|].
  pose proof (layout_range_ok [] (merge_new [] l)
                (drop (length (merge_new [] l) - length (@nil Z)) (elements s))) as Hr.
  split_and!.
  - split_and!; [done|done|simpl; lia|].
    unfold I2. rewrite layout_active. apply merge_new_NoDup, NoDup_nil_2.
  - rewrite size_active by (done || simpl; lia).
    rewrite layout_active. lia.
  - intros v. rewrite contains_member by done.
    rewrite layout_active, merge_new_elem, elem_of_nil. tauto.
Qed.

Lemma insert_all_repetitions_witness :
  ∃ s', insert_all (create 3) [4; 6; 4; 6; 4] = Some s' ∧ wf s' ∧
        size s' = Z.of_nat (length (remove_dups [4; 6; 4; 6; 4])) ∧
        (∀ v, contains s' v = Some true ↔ v ∈ [4; 6; 4; 6; 4]).
Proof.
  apply (insert_all_repetitions (create 3) [4; 6; 4; 6; 4]).
  - left. by exists 3.
  - vm_compute. discriminate.
  - vm_compute. discriminate.
Defined.

(** X23: the number of slots is a hard bound: a sequence of more distinct
    values than a fresh set has slots is never inserted, the insert that
    finds every slot active writes past the end. *)
Theorem insert_all_beyond_capacity (s : sparse_array_set) (l : list Z) :
  fresh s → NoDup l →
  capacity s < Z.of_nat (length l) → capacity s ≤ INT_MAX + 1 →
  insert_all s l = None.
Proof.
  intros Hs Hnd Hcap Hmax. unfold capacity in *.
  rewrite <- (take_drop (length (elements s)) l) in Hnd |- *.
  set (l1 := take (length (elements s)) l) in *.
  assert (length l1 = length (elements s)) as Hl1.
  { unfold l1. rewrite length_take. lia. }
  destruct (drop (length (elements s)) l) as [|v l2] eqn:Hd.
  { apply (f_equal length) in Hd. rewrite length_drop in Hd. simpl in Hd. lia. }
  apply NoDup_app in Hnd as (Hnd1 & Hdisj & _).
  assert (merge_new [] l1 = l1) as Hm by by apply (merge_new_fresh []).
  rewrite insert_all_app, (fresh_layout s Hs).
  rewrite insert_all_layout by (rewrite Hm; simpl; lia).
  rewrite Hm. simpl. rewrite Nat.sub_0_r, Hl1, drop_all.
  rewrite insert_layout_full; [done| |simpl; lia].
  intros Hin. apply (Hdisj v Hin). left.
Qed.

Lemma insert_all_beyond_capacity_witness :
  insert_all (create 2) [5; 7; 9] = None.
Proof.
  apply (insert_all_beyond_capacity (create 2) [5; 7; 9]).
  - left. by exists 2.
  - apply (bool_decide_unpack _). vm_compute. exact I.
  - vm_compute. reflexivity.
  - vm_compute. discriminate.
Defined.

(** X24: [remove] is idempotent on a set: after a [remove(x)] that
    returned, a second [remove(x)] returns and changes nothing. *)
Theorem remove_idempotent (s s1 : sparse_array_set) (x : Z) :
  wf s → remove s x = Some s1 → remove s1 x = Some s1.
Proof.
  intros Hwf Hrem. pose proof Hwf as (Hf & Hr & Hty & Hnd).
  destruct (decide (x ∈ active s)) as [Hin|Hnin].
  - destruct (remove_member_wf s x Hwf Hin)
      as (s' & Hrem' & Hwf' & _ & Hnin' & Hl & _).
    rewrite Hrem in Hrem'. simplify_eq.
    apply remove_absent; [|lia].
    apply contains_false. by destruct Hwf' as (_ & ? & _).
  - destruct (remove_inv s x s1 Hrem Hr) as [[_ ->]|[Hin _]];
      [unfold INT_MAX; lia|done|done|done].
Qed.

Lemma remove_idempotent_witness :
  remove (mk_set [9; 7; 5; -1] 0 1) 5 = Some (mk_set [9; 7; 5; -1] 0 1).
Proof.
  apply (remove_idempotent (mk_set [5; 7; 9; -1] 0 2) (mk_set [9; 7; 5; -1] 0 1) 5).
  - apply (bool_decide_unpack _). vm_compute. exact I.
  - reflexivity.
Defined.

(** X25: the constructor fills its [c] slots with -1 and makes none of
    them active: [at] reads -1 in every slot, and no value, -1 included,
    is a member. *)
Theorem create_slots (c : Z) :
  0 ≤ c →
  capacity (create c) = c ∧
  (∀ i, 0 ≤ i < c → at_ (create c) i = Some (-1)) ∧
  (∀ i, i < 0 ∨ c ≤ i → at_ (create c) i = None) ∧
  (∀ x, contains (create c) x = Some false).
Proof.
  intros Hc. split_and!.
  - unfold capacity, create; simpl. rewrite length_replicate. lia.
  - intros i Hi. unfold at_, create, vec_get; simpl.
    rewrite decide_True by lia. apply lookup_replicate_2. lia.
  - intros i Hi. unfold at_, create, vec_get; simpl.
    case_decide; [|done]. apply lookup_replicate_None. lia.
  - intros x. apply contains_false. split.
    + by destruct (wf_create c) as (_ & ? & _).
    + unfold active; simpl. apply not_elem_of_nil.
Qed.

Lemma create_slots_witness :
  capacity (create 3) = 3 ∧
  (∀ i, 0 ≤ i < 3 → at_ (create 3) i = Some (-1)) ∧
  (∀ i, i < 0 ∨ 3 ≤ i → at_ (create 3) i = None) ∧
  (∀ x, contains (create 3) x = Some false).
Proof. apply (create_slots 3). lia. Defined.
